(** * ca-extension: the pnpm curation audit of checks/combined_audit/main.go

    A shallow embedding of the lock-file parser, the dependency enumerator,
    the registry prober and the concurrent audit coordinator, together with
    the properties the specification states about them. *)

From Stdlib Require Import String Ascii ZArith Lia List.
From stdpp Require Import gmap strings list fin_maps sorting pretty relations.

Local Open Scope string_scope.
Local Open Scope Z_scope.

(** ** Go's [strings] package, on byte strings

    Every separator the program passes is the one-byte string ["@"] or
    ["/"], so separators are modelled as a single [ascii]. *)

Module GoStrings.

(** [strings.Contains(s, c)]. *)
Fixpoint Contains (s : string) (c : ascii) : bool :=
  match s with
  | EmptyString => false
  | String a s' => if Ascii.eqb a c then true else Contains s' c
  end.

(** [strings.HasPrefix(s, prefix)]. *)
Definition HasPrefix (s prefix : string) : bool := String.prefix prefix s.

(** [strings.LastIndex(s, c)]: byte offset of the last [c], or -1. *)
Fixpoint LastIndex (s : string) (c : ascii) : Z :=
  match s with
  | EmptyString => -1
  | String a s' =>
      let r := LastIndex s' c in
      if 0 <=? r then r + 1 else if Ascii.eqb a c then 0 else -1
  end.

(** The slice expressions [s[:n]] and [s[n:]]. *)
Fixpoint slice_to (s : string) (n : nat) : string :=
  match n, s with
  | S n', String a s' => String a (slice_to s' n')
  | _, _ => EmptyString
  end.

Fixpoint slice_from (s : string) (n : nat) : string :=
  match n, s with
  | S n', String _ s' => slice_from s' n'
  | _, _ => s
  end.

(** [strings.Split(s, c)]: the pieces between the separators, one more
    piece than there are separators. *)
Fixpoint Split (s : string) (c : ascii) : list string :=
  match s with
  | EmptyString => [EmptyString]
  | String a s' =>
      if Ascii.eqb a c then EmptyString :: Split s' c
      else match Split s' c with
           | p :: ps => String a p :: ps
           | [] => [String a EmptyString]
           end
  end.

(** [strings.SplitN(s, c, 2)]: cut at the first separator only. *)
Fixpoint SplitN2 (s : string) (c : ascii) : list string :=
  match s with
  | EmptyString => [EmptyString]
  | String a s' =>
      if Ascii.eqb a c then [EmptyString; s']
      else match SplitN2 s' c with
           | p :: ps => String a p :: ps
           | [] => [String a EmptyString]
           end
  end.

(** The last element of a non-empty slice, [parts[len(parts)-1]]. *)
Definition last_part (parts : list string) : string :=
  List.last parts EmptyString.

End GoStrings.
Import GoStrings.

(** ** Data model (main.go, lines 22-56) *)

(** A decoded YAML value held in an [interface{}]: the parser only asks
    whether it is a [map[string]interface{}]. *)
#[local] Unset Elimination Schemes.
Inductive yaml_value : Type :=
| YScalar (repr : string)
| YSeq (items : list yaml_value)
| YMap (fields : list (string * yaml_value))
| YOtherMap (fields : list (yaml_value * yaml_value)).
#[local] Set Elimination Schemes.

Record PackageInfo : Type := mkPackageInfo {
  Version : string;
  Type_ : string;
  Resolution : option (list (string * yaml_value));
  Engines : option (list (string * yaml_value))
}.

Record Dependency : Type := mkDependency {
  dName : string;
  dVersion : string;
  dType : string
}.

(** [DependencyTree.Packages] and [LockData.Packages]. *)
Abbreviation DependencyTree := (gmap string PackageInfo).
Abbreviation LockEntry := (gmap string yaml_value).

Record AuditResult : Type := mkAuditResult {
  Index : nat;
  Name : string;
  rVersion : string;
  rType : string;
  Status : string;
  StatusCode : Z;
  Error : option string
}.

(** ** Lockfile parser *)

Definition at_sign : ascii := "@"%char.
Definition slash : ascii := "/"%char.

Definition parsePackageKey (packageKey : string) : string * string :=
  if HasPrefix packageKey "@" then
    let lastAtIndex := LastIndex packageKey at_sign in
    if 0 <? lastAtIndex then
      (slice_to packageKey (Z.to_nat lastAtIndex),
       slice_from packageKey (Z.to_nat (lastAtIndex + 1)))
    else (EmptyString, EmptyString)
  else
    match SplitN2 packageKey at_sign with
    | [name; version] => (name, version)
    | _ => (EmptyString, EmptyString)
    end.

(** [if v, exists := m[key]; exists { if mm, ok := v.(map[string]interface{}); ok {...} }]:
    the sub-mapping under [key], when there is one. *)
Definition string_map (packageInfo : LockEntry) (key : string)
    : option (list (string * yaml_value)) :=
  match packageInfo !! key with
  | Some (YMap fields) => Some fields
  | _ => None
  end.

(** The record a successfully split key yields. *)
Definition declared (version : string) (packageInfo : LockEntry) : PackageInfo :=
  mkPackageInfo version "package"
    (string_map packageInfo "resolution") (string_map packageInfo "engines").

(** The body of the loop over [lockData.Packages] (lines 121-143). *)
Definition processEntry (allPackages : DependencyTree)
    (entry : string * LockEntry) : DependencyTree :=
  let '(packageKey, packageInfo) := entry in
  let '(packageName, version) := parsePackageKey packageKey in
  if negb (String.eqb packageName "") && negb (String.eqb version "") then
    <[packageName := declared version packageInfo]> allPackages
  else allPackages.

(** The whole loop, over the entries in the order the [range] visits them. *)
Definition parsePackages (entries : list (string * LockEntry)) : DependencyTree :=
  fold_left processEntry entries ∅.

(** What the file system and the YAML decoder hand to [parsePnpmLock]. *)
Inductive LockFile : Type :=
| FileMissing
| FileUnreadable (err : string)
| FileUndecodable (err : string)
| FileDecoded (entries : list (string * LockEntry)).

Inductive ParseError : Type :=
| NotFound (path : string)
| ReadFailure (path err : string)
| DecodeFailure (err : string).

Definition parsePnpmLock (lockFilePath : string) (file : LockFile)
    : ParseError + DependencyTree :=
  match file with
  | FileMissing => inl (NotFound lockFilePath)
  | FileUnreadable err => inl (ReadFailure lockFilePath err)
  | FileUndecodable err => inl (DecodeFailure err)
  | FileDecoded entries => inr (parsePackages entries)
  end.

(** ** The indirect-dependency extractor (lines 58-77)

    [regexp.MustCompile(`\(([^@]+)@([^)]+)\)`)]: an opening parenthesis, a
    non-empty run of bytes other than [@], an [@], a non-empty run of bytes
    other than [)], and a closing parenthesis. A run cannot contain the byte
    that ends it, so each group is the maximal run and the match at a given
    start is unique. *)

Fixpoint span_not (c : ascii) (s : string) : string * string :=
  match s with
  | EmptyString => (EmptyString, EmptyString)
  | String a s' =>
      if Ascii.eqb a c then (EmptyString, s)
      else let '(run, rest) := span_not c s' in (String a run, rest)
  end.

(** The pattern anchored at the head of [s]: both groups and what follows
    the match. *)
Definition match_here (s : string) : option (string * string * string) :=
  match s with
  | String "("%char s1 =>
      match span_not "@"%char s1 with
      | (String a g1, String _ s2) =>
          match span_not ")"%char s2 with
          | (String b g2, String _ s3) => Some (String a g1, String b g2, s3)
          | _ => None
          end
      | _ => None
      end
  | _ => None
  end.

(** [FindAllStringSubmatch(s, -1)]: leftmost matches, each search resuming
    where the previous match ended. [fuel] bounds the number of start
    positions tried. *)
Fixpoint find_all (fuel : nat) (s : string) : list (string * string) :=
  match fuel with
  | O => []
  | S fuel' =>
      match match_here s with
      | Some (g1, g2, rest) => (g1, g2) :: find_all fuel' rest
      | None =>
          match s with
          | EmptyString => []
          | String _ s' => find_all fuel' s'
          end
      end
  end.

Definition FindAllStringSubmatch (s : string) : list (string * string) :=
  find_all (S (String.length s)) s.

Definition extractIndirectDependencies (versionString : string) : DependencyTree :=
  fold_left
    (fun indirectDeps m =>
       <[m.1 := mkPackageInfo m.2 "indirect" None None]> indirectDeps)
    (FindAllStringSubmatch versionString) ∅.

(** ** Dependency enumerator (lines 166-187) *)

(** Go compares strings byte by byte. *)
Definition str_le (a b : string) : Prop := String.leb a b = true.

#[global] Instance str_le_dec a b : Decision (str_le a b).
Proof. unfold str_le. apply _. Defined.

(** [sort.Strings]. *)
Definition sort_Strings (l : list string) : list string := merge_sort str_le l.

(** [m[k]] on a Go map: the zero value when the key is absent. *)
Definition zeroPackageInfo : PackageInfo :=
  mkPackageInfo EmptyString EmptyString None None.

(** [range_order] is the order in which the [range] over the map yields
    its keys, which Go leaves unspecified. *)
Definition fetchDependenciesFromTree (range_order : list string)
    (dependencies : DependencyTree) : list Dependency :=
  let packageNames := sort_Strings range_order in
  map (fun packageName =>
         let info := default zeroPackageInfo (dependencies !! packageName) in
         mkDependency packageName (Version info) (Type_ info))
      packageNames.

(** A range order of a map: its keys, each once, in any order. *)
Definition is_range_order (order : list string) (m : DependencyTree) : Prop :=
  order ≡ₚ (map_to_list m).*1.

(** ** Registry prober (lines 189-267)

    The prober talks to [net/http] twice: [http.NewRequest] builds the
    request from the URL (and may refuse it), [client.Do] performs the GET
    and yields either a transport error or a response with a status code.
    A probe is the tree of these interactions. *)

Inductive probe (A : Type) : Type :=
| Ret (a : A)
| NewRequest (method url : string) (k : option string -> probe A)
| ClientDo (url : string) (authorization : option string)
    (k : string + Z -> probe A).
Arguments Ret {A} a.
Arguments NewRequest {A} method url k.
Arguments ClientDo {A} url authorization k.

(** [fmt.Sprintf("%s/%s/-/%s-%s.tgz", base, name, file, version)]. *)
Definition tarballURL (base name file version : string) : string :=
  base +:+ "/" +:+ name +:+ "/-/" +:+ file +:+ "-" +:+ version +:+ ".tgz".

Definition statusAvailable : string := "✅ Available in NPM Registry".
Definition statusBlocked : string := "❌ Blocked (403 Forbidden)".
Definition statusNotFound : string := "❌ Not Found (404)".
Definition statusRequestFailed : string := "❌ Request Failed".
Definition statusInvalidScoped : string := "❌ Invalid scoped package format".
(** [fmt.Sprintf("⚠️ Unexpected Response: %d", code)]. *)
Definition statusUnexpected (code : Z) : string :=
  "⚠️ Unexpected Response: " +:+ pretty code.

Definition statusOf (code : Z) : string :=
  if code =? 200 then statusAvailable
  else if code =? 403 then statusBlocked
  else if code =? 404 then statusNotFound
  else statusUnexpected code.

Definition checkNpmRegistry
    (packageName packageVersion packageType npmRegistryBaseURL accessToken : string)
    : probe AuditResult :=
  let failed status err :=
    mkAuditResult 0 packageName packageVersion packageType status 0 (Some err) in
  let get packageURL :=
    NewRequest "GET" packageURL (fun err =>
      match err with
      | Some err => Ret (failed statusRequestFailed err)
      | None =>
          ClientDo packageURL
            (if String.eqb accessToken "" then None
             else Some ("Bearer " +:+ accessToken))
            (fun resp =>
               match resp with
               | inl err => Ret (failed statusRequestFailed err)
               | inr code =>
                   Ret (mkAuditResult 0 packageName packageVersion packageType
                          (statusOf code) code None)
               end)
      end) in
  if HasPrefix packageName "@" then
    let parts := Split packageName slash in
    if (2 <=? length parts)%nat then
      get (tarballURL npmRegistryBaseURL packageName (last_part parts)
             packageVersion)
    else
      Ret (failed statusInvalidScoped "invalid scoped package format")
  else
    get (tarballURL npmRegistryBaseURL packageName packageName packageVersion).

(** The outside world during one probe: what [http.NewRequest] answers for
    a URL and what the registry answers to a GET. *)
Record Env : Type := mkEnv {
  new_request : string -> string -> option string;
  client_do : string -> option string -> string + Z
}.

Fixpoint run_probe {A : Type} (env : Env) (p : probe A) : A :=
  match p with
  | Ret a => a
  | NewRequest method url k => run_probe env (k (new_request env method url))
  | ClientDo url auth k => run_probe env (k (client_do env url auth))
  end.

(** The GET requests a probe sends over the network in [env]. *)
Fixpoint network_calls {A : Type} (env : Env) (p : probe A)
    : list (string * option string) :=
  match p with
  | Ret _ => []
  | NewRequest method url k => network_calls env (k (new_request env method url))
  | ClientDo url auth k =>
      (url, auth) :: network_calls env (k (client_do env url auth))
  end.

(** ** Concurrent audit coordinator (lines 269-338)

    The goroutines of [auditDependenciesConcurrently] as a transition
    system: the sender, [numWorkers] workers, the closer that waits on the
    [WaitGroup], and the collecting loop of the calling goroutine. The
    scheduler picks the next [action]; [exec] is that goroutine's next
    statement, or [None] where the goroutine is blocked. *)

Inductive wstate : Type :=
| WReceiving                       (* at [for dep := range jobs] *)
| WProbing (dep : Dependency)      (* about to call [checkNpmRegistry] *)
| WSending (result : AuditResult)  (* at [results <- result] *)
| WExited.                         (* after [wg.Done()] *)

Inductive output : Type :=
| Progress (completed total : nat)
| NewLine
| ReportLine (position total : nat) (result : AuditResult).

Record cstate : Type := mkState {
  pending : list Dependency;        (* sender: items not yet sent *)
  jobs : list Dependency;           (* buffer of the [jobs] channel *)
  jobs_closed : bool;
  workers : list wstate;
  wg : nat;                         (* the [WaitGroup] counter *)
  results : list AuditResult;       (* buffer of the [results] channel *)
  results_closed : bool;
  resultMap : gmap nat AuditResult;
  completed : nat;
  stdout : list output;
  returned : bool;                  (* the function has returned *)
  probed : list Dependency          (* the calls of the prober, oldest first *)
}.

Inductive action : Type :=
| ASend                          (* sender: [jobs <- depCopy] *)
| ACloseJobs                     (* sender: [close(jobs)] *)
| AReceive (w : nat)             (* worker [w] takes an item from [jobs] *)
| AProbe (w : nat) (env : Env)   (* worker [w] runs the prober in [env] *)
| ADeliver (w : nat)             (* worker [w]: [results <- result] *)
| AExit (w : nat)                (* worker [w] leaves its loop, [wg.Done()] *)
| ACloseResults                  (* closer: [wg.Wait()] is over, [close(results)] *)
| ACollect                       (* caller: one turn of [range results] *)
| AReport.                       (* caller: the loop has ended; print, return *)

(** [for i, dep := range deps { if dep.Name == result.Name && ... }]: the
    first position whose name and version equal the result's. *)
Fixpoint find_index (deps : list Dependency) (result : AuditResult) (i : nat)
    : option nat :=
  match deps with
  | [] => None
  | dep :: rest =>
      if String.eqb (dName dep) (Name result)
         && String.eqb (dVersion dep) (rVersion result)
      then Some i
      else find_index rest result (S i)
  end.

Definition set_Index (i : nat) (r : AuditResult) : AuditResult :=
  mkAuditResult i (Name r) (rVersion r) (rType r) (Status r) (StatusCode r)
    (Error r).

(** One turn of the collecting loop on the result map. *)
Definition record_result (deps : list Dependency)
    (m : gmap nat AuditResult) (result : AuditResult) : gmap nat AuditResult :=
  match find_index deps result 0 with
  | Some i => <[i := set_Index i result]> m
  | None => m
  end.

(** [for i := 0; i < len(deps); i++ { if result, exists := resultMap[i] ... }]. *)
Definition report_lines (total : nat) (m : gmap nat AuditResult) : list output :=
  omap (fun i => (fun result => ReportLine (i + 1) total result) <$> m !! i)
       (seq 0 total).

Definition init (deps : list Dependency) (numWorkers : Z) : cstate :=
  mkState deps [] false (replicate (Z.to_nat numWorkers) WReceiving)
    (Z.to_nat numWorkers) [] false ∅ 0 [] false [].

Definition set_worker (w : nat) (st : wstate) (s : cstate) : list wstate :=
  <[w := st]> (workers s).

Definition exec (deps : list Dependency) (npmRegistryBaseURL accessToken : string)
    (a : action) (s : cstate) : option cstate :=
  let cap := length deps in
  match a with
  | ASend =>
      match pending s with
      | dep :: rest =>
          if (length (jobs s) <? cap)%nat then
            Some (mkState rest (jobs s ++ [dep]) (jobs_closed s) (workers s)
                    (wg s) (results s) (results_closed s) (resultMap s)
                    (completed s) (stdout s) (returned s) (probed s))
          else None
      | [] => None
      end
  | ACloseJobs =>
      match pending s, jobs_closed s with
      | [], false =>
          Some (mkState [] (jobs s) true (workers s) (wg s) (results s)
                  (results_closed s) (resultMap s) (completed s) (stdout s)
                  (returned s) (probed s))
      | _, _ => None
      end
  | AReceive w =>
      match workers s !! w, jobs s with
      | Some WReceiving, dep :: rest =>
          Some (mkState (pending s) rest (jobs_closed s)
                  (set_worker w (WProbing dep) s) (wg s) (results s)
                  (results_closed s) (resultMap s) (completed s) (stdout s)
                  (returned s) (probed s))
      | _, _ => None
      end
  | AProbe w env =>
      match workers s !! w with
      | Some (WProbing dep) =>
          let result :=
            run_probe env
              (checkNpmRegistry (dName dep) (dVersion dep) (dType dep)
                 npmRegistryBaseURL accessToken) in
          Some (mkState (pending s) (jobs s) (jobs_closed s)
                  (set_worker w (WSending result) s) (wg s) (results s)
                  (results_closed s) (resultMap s) (completed s) (stdout s)
                  (returned s) (probed s ++ [dep]))
      | _ => None
      end
  | ADeliver w =>
      match workers s !! w with
      | Some (WSending result) =>
          if (length (results s) <? cap)%nat && negb (results_closed s) then
            Some (mkState (pending s) (jobs s) (jobs_closed s)
                    (set_worker w WReceiving s) (wg s)
                    (results s ++ [result]) (results_closed s) (resultMap s)
                    (completed s) (stdout s) (returned s) (probed s))
          else None
      | _ => None
      end
  | AExit w =>
      match workers s !! w, jobs s, jobs_closed s with
      | Some WReceiving, [], true =>
          Some (mkState (pending s) [] true (set_worker w WExited s)
                  (wg s - 1)%nat (results s) (results_closed s) (resultMap s)
                  (completed s) (stdout s) (returned s) (probed s))
      | _, _, _ => None
      end
  | ACloseResults =>
      match wg s, results_closed s with
      | O, false =>
          Some (mkState (pending s) (jobs s) (jobs_closed s) (workers s) O
                  (results s) true (resultMap s) (completed s) (stdout s)
                  (returned s) (probed s))
      | _, _ => None
      end
  | ACollect =>
      match results s, returned s with
      | result :: rest, false =>
          Some (mkState (pending s) (jobs s) (jobs_closed s) (workers s) (wg s)
                  rest (results_closed s)
                  (record_result deps (resultMap s) result)
                  (completed s + 1)%nat
                  (stdout s ++ [Progress (completed s + 1) cap])
                  false (probed s))
      | _, _ => None
      end
  | AReport =>
      match results s, results_closed s, returned s with
      | [], true, false =>
          Some (mkState (pending s) (jobs s) (jobs_closed s) (workers s) (wg s)
                  [] true (resultMap s) (completed s)
                  (stdout s ++ NewLine :: report_lines cap (resultMap s))
                  true (probed s))
      | _, _, _ => None
      end
  end.

(** A run under a given schedule. *)
Fixpoint run (deps : list Dependency) (base token : string)
    (schedule : list action) (s : cstate) : option cstate :=
  match schedule with
  | [] => Some s
  | a :: rest =>
      match exec deps base token a s with
      | Some s' => run deps base token rest s'
      | None => None
      end
  end.

Definition step (deps : list Dependency) (base token : string)
    (s s' : cstate) : Prop :=
  exists a, exec deps base token a s = Some s'.

Definition reachable (deps : list Dependency) (base token : string)
    (numWorkers : Z) (s : cstate) : Prop :=
  rtc (step deps base token) (init deps numWorkers) s.

(** The lines of the final report, in the order printed. *)
Definition report_line (o : output) : option AuditResult :=
  match o with
  | ReportLine _ _ r => Some r
  | _ => None
  end.

Definition final_report (s : cstate) : list AuditResult :=
  omap report_line (stdout s).

Definition dep_of (r : AuditResult) : Dependency :=
  mkDependency (Name r) (rVersion r) (rType r).

Definition identity (d : Dependency) : string * string := (dName d, dVersion d).

(** The steps still ahead of a state: every action lowers it. *)
Definition worker_weight (st : wstate) : nat :=
  match st with
  | WReceiving => 1
  | WProbing _ => 4
  | WSending _ => 3
  | WExited => 0
  end.

Definition steps_left (s : cstate) : nat :=
  (5 * length (pending s) + 4 * length (jobs s)
   + sum_list_with worker_weight (workers s) + length (results s)
   + (if jobs_closed s then 0 else 1)
   + (if results_closed s then 0 else 1)
   + (if returned s then 0 else 1))%nat.

(** ** Command line (main, lines 374-400)

    [fmt.Sscanf(arg, "%d", &numWorkers)] on the bytes of [arg]: leading
    white space is skipped (a newline is an error), one sign is accepted,
    then a non-empty run of digits and underscores, which
    [strconv.ParseInt(tok, 10, 64)] converts; what follows the number is
    not looked at. *)

Inductive scan_error : Type :=
| UnexpectedNewline
| ErrEOF
| ExpectedInteger
| InvalidSyntax (tok : string)
| OutOfRange (tok : string).

Definition byte (a : ascii) : N := N_of_ascii a.

(** The white-space runes of [fmt], by their UTF-8 encodings. *)
Definition space1 (a : N) : bool :=
  ((9 <=? a) && (a <=? 13) || (a =? 32))%N.
Definition space2 (a b : N) : bool :=
  ((a =? 194) && ((b =? 133) || (b =? 160)))%N.
Definition space3 (a b c : N) : bool :=
  ((a =? 225) && (b =? 154) && (c =? 128)
   || (a =? 226) && (b =? 128)
      && ((128 <=? c) && (c <=? 138) || (c =? 168) || (c =? 169) || (c =? 175))
   || (a =? 226) && (b =? 129) && (c =? 159)
   || (a =? 227) && (b =? 128) && (c =? 128))%N.

Fixpoint SkipSpace (s : string) : scan_error + string :=
  match s with
  | EmptyString => inr s
  | String a s1 =>
      if (byte a =? 10)%N then inl UnexpectedNewline
      else if space1 (byte a) then SkipSpace s1
      else
        match s1 with
        | String b s2 =>
            if space2 (byte a) (byte b) then SkipSpace s2
            else
              match s2 with
              | String c s3 =>
                  if space3 (byte a) (byte b) (byte c) then SkipSpace s3
                  else inr s
              | EmptyString => inr s
              end
        | EmptyString => inr s
        end
  end.

Definition is_digit (a : ascii) : bool := ((48 <=? byte a) && (byte a <=? 57))%N.
Definition is_sign (a : ascii) : bool :=
  Ascii.eqb a "+"%char || Ascii.eqb a "-"%char.
Definition number_byte (a : ascii) : bool := is_digit a || Ascii.eqb a "_"%char.

(** The longest prefix of [s] whose bytes satisfy [p]. *)
Fixpoint accept_all (p : ascii -> bool) (s : string) : string :=
  match s with
  | EmptyString => EmptyString
  | String a s' => if p a then String a (accept_all p s') else EmptyString
  end.

(** The value of a string of decimal digits, [None] on any other byte. *)
Fixpoint decimal (acc : Z) (s : string) : option Z :=
  match s with
  | EmptyString => Some acc
  | String a s' =>
      if is_digit a then decimal (10 * acc + Z.of_N (byte a - 48)) s'
      else None
  end.

(** [strconv.ParseInt(tok, 10, 64)]. *)
Definition ParseInt (tok : string) : scan_error + Z :=
  let '(neg, digits) :=
    match tok with
    | String "+"%char d => (false, d)
    | String "-"%char d => (true, d)
    | _ => (false, tok)
    end in
  match digits with
  | EmptyString => inl (InvalidSyntax tok)
  | _ =>
      match decimal 0 digits with
      | None => inl (InvalidSyntax tok)
      | Some un =>
          let v := if neg then - un else un in
          if (- 2 ^ 63 <=? v) && (v <=? 2 ^ 63 - 1) then inr v
          else inl (OutOfRange tok)
      end
  end.

Definition scanInt (s : string) : scan_error + Z :=
  match SkipSpace s with
  | inl e => inl e
  | inr EmptyString => inl ErrEOF
  | inr (String a rest as s1) =>
      let '(sign, s2) :=
        if is_sign a then (String a EmptyString, rest) else (EmptyString, s1) in
      match s2 with
      | EmptyString => inl ErrEOF
      | String d _ =>
          if number_byte d then ParseInt (sign +:+ accept_all number_byte s2)
          else inl ExpectedInteger
      end
  end.

(** [n, err := fmt.Sscanf(str, "%d", &target)]: the count of items stored,
    the error, and the value of [target] afterwards. *)
Definition Sscanf_d (str : string) (target : Z) : Z * option scan_error * Z :=
  match SkipSpace str with
  | inl e => (0, Some e, target)
  | inr s1 =>
      match scanInt s1 with
      | inl e => (0, Some e, target)
      | inr v => (1, None, v)
      end
  end.

Record Config : Type := mkConfig {
  lockFilePath : string;
  npmRegistryBaseURL : string;
  accessToken : string;
  numWorkers : Z;
  warnings : list string
}.

Definition workers_warning (arg : string) : string :=
  "Warning: Invalid number of workers '" +:+ arg +:+ "', using default of 5".

(** The argument handling of [main]; [None] is the usage message and
    [os.Exit(1)]. [args] is [os.Args], the program name first. *)
Definition main_config (args : list string) : option Config :=
  if (length args <? 3)%nat then None
  else
    let lockFilePath := nth 1 args EmptyString in
    let npmRegistryBaseURL := nth 2 args EmptyString in
    let accessToken :=
      if (3 <? length args)%nat then nth 3 args EmptyString else EmptyString in
    let numWorkers := 5 in
    if (4 <? length args)%nat then
      let '(workers, err, numWorkers) :=
        Sscanf_d (nth 4 args EmptyString) numWorkers in
      if bool_decide (is_Some err) || negb (workers =? 1) then
        Some (mkConfig lockFilePath npmRegistryBaseURL accessToken 5
                [workers_warning (nth 4 args EmptyString)])
      else
        Some (mkConfig lockFilePath npmRegistryBaseURL accessToken numWorkers [])
    else
      Some (mkConfig lockFilePath npmRegistryBaseURL accessToken numWorkers []).

(** ** The specification's reading of a lock key *)

(** The cut the specification describes: at the last [@] of a key that
    begins with [@], at the first [@] of any other key. *)
Definition spec_split (key name version : string) : Prop :=
  key = name +:+ String at_sign version
  /\ (if HasPrefix key "@" then Contains version at_sign = false
      else Contains name at_sign = false).

(** An entry the parser drops: it leaves every tree as it was. *)
Definition discarded (key : string) : Prop :=
  forall (tree : DependencyTree) (info : LockEntry),
    processEntry tree (key, info) = tree.

(** ** The prober, piecewise *)

(** The URL lines 191-210 compute, [None] on the malformed scoped name. *)
Definition packageURL (npmRegistryBaseURL packageName packageVersion : string)
    : option string :=
  if HasPrefix packageName "@" then
    if (2 <=? length (Split packageName slash))%nat then
      Some (tarballURL npmRegistryBaseURL packageName
              (last_part (Split packageName slash)) packageVersion)
    else None
  else Some (tarballURL npmRegistryBaseURL packageName packageName packageVersion).

(** The header line 231 sets. *)
Definition authorization (accessToken : string) : option string :=
  if String.eqb accessToken "" then None else Some ("Bearer " +:+ accessToken).

(** The outcome of lines 247-266 for a response with status [code]. *)
Definition responded (name version type : string) (code : Z) : AuditResult :=
  mkAuditResult 0 name version type (statusOf code) code None.

(** The outcome of the three early returns. *)
Definition failed (name version type status err : string) : AuditResult :=
  mkAuditResult 0 name version type status 0 (Some err).

(** ** The order of the work list *)

Definition str_lt (a b : string) : Prop := str_le a b /\ a <> b.

(** The 0-based rank of [name] among [names]: how many of them come
    strictly before it. *)
Definition rank (names : list string) (name : string) : nat :=
  length (filter (fun n => str_lt n name) names).

(** ** Invariants of the coordinator *)

(** The work item a worker is holding, as an item or as its outcome. *)
Definition held (st : wstate) : list Dependency :=
  match st with
  | WProbing dep => [dep]
  | WSending result => [dep_of result]
  | _ => []
  end.

(** The work item a worker has probed and not yet delivered. *)
Definition undelivered (st : wstate) : list Dependency :=
  match st with
  | WSending result => [dep_of result]
  | _ => []
  end.

Definition running (st : wstate) : Prop := st <> WExited.

#[global] Instance Dependency_eq_dec : EqDecision Dependency.
Proof. solve_decision. Defined.

#[global] Instance AuditResult_eq_dec : EqDecision AuditResult.
Proof. solve_decision. Defined.

#[global] Instance wstate_eq_dec : EqDecision wstate.
Proof. solve_decision. Defined.

#[global] Instance running_dec st : Decision (running st).
Proof. unfold running. apply _. Defined.

(** Every submitted item is in exactly one place: not yet sent, queued,
    with a worker, in the results channel, or among the outcomes
    [received] by the collecting loop. *)
Definition accounts (deps : list Dependency) (s : cstate)
    (received : list AuditResult) : Prop :=
  deps ≡ₚ pending s ++ jobs s ++ (workers s ≫= held)
          ++ (dep_of <$> results s) ++ (dep_of <$> received)
  /\ probed s ≡ₚ (workers s ≫= undelivered)
                 ++ (dep_of <$> results s) ++ (dep_of <$> received)
  /\ resultMap s = fold_left (record_result deps) received ∅
  /\ completed s = length received.

(** The channels and the [WaitGroup] agree with the goroutines. *)
Definition synchronised (numWorkers : Z) (s : cstate) : Prop :=
  length (workers s) = Z.to_nat numWorkers
  /\ wg s = length (filter running (workers s))
  /\ (jobs_closed s = true -> pending s = [])
  /\ (WExited ∈ workers s -> jobs_closed s = true /\ jobs s = [])
  /\ (results_closed s = true -> wg s = 0%nat).

(** The outcomes the report loop prints for a result map. *)
Definition report_results (total : nat) (m : gmap nat AuditResult)
    : list AuditResult :=
  omap (fun i => m !! i) (seq 0 total).

(** The report is printed once, on return, from the final result map. *)
Definition reported (deps : list Dependency) (s : cstate) : Prop :=
  if returned s
  then results_closed s = true /\ results s = []
       /\ final_report s = report_results (length deps) (resultMap s)
  else final_report s = [].

(** A result map whose entries sit at the position of their work item. *)
Definition well_placed (deps : list Dependency) (m : gmap nat AuditResult)
    : Prop :=
  forall i r, m !! i = Some r -> Index r = i /\ deps !! i = Some (dep_of r).

(** What holds of every name the parser records. *)
Definition name_ok (name : string) : Prop :=
  name <> EmptyString
  /\ (HasPrefix name "@" = false -> Contains name at_sign = false).

(** ** Sample runs of the coordinator *)

(** An environment to probe in: every request is accepted and answered 200. *)
Definition env_ok : Env := mkEnv (fun _ _ => None) (fun _ _ => inr 200).

(** Two items, two workers; the second item's outcome is delivered and
    collected before the first's. *)
Definition two_items : list Dependency :=
  [mkDependency "abbrev" "1.1.1" "package";
   mkDependency "left-pad" "1.3.0" "package"].

Definition reversed_schedule : list action :=
  [ASend; ASend; ACloseJobs; AReceive 0; AReceive 1;
   AProbe 1 env_ok; ADeliver 1; AProbe 0 env_ok; ADeliver 0;
   AExit 0; AExit 1; ACloseResults; ACollect; ACollect; AReport].

Definition reversed_run : cstate :=
  default (init two_items 2)
    (run two_items "https://registry.npmjs.org" "" reversed_schedule
       (init two_items 2)).

(** The same item submitted twice, one worker. *)
Definition twice : list Dependency :=
  [mkDependency "abbrev" "1.1.1" "package";
   mkDependency "abbrev" "1.1.1" "package"].

Definition twice_schedule : list action :=
  [ASend; ASend; ACloseJobs;
   AReceive 0; AProbe 0 env_ok; ADeliver 0;
   AReceive 0; AProbe 0 env_ok; ADeliver 0;
   AExit 0; ACloseResults; ACollect; ACollect; AReport].

Definition twice_run : cstate :=
  default (init twice 1)
    (run twice "https://registry.npmjs.org" "" twice_schedule (init twice 1)).

(** One item and no worker. *)
Definition one_item : list Dependency :=
  [mkDependency "abbrev" "1.1.1" "package"].

Definition idle_schedule : list action :=
  [ASend; ACloseJobs; ACloseResults; AReport].

Definition idle_run : cstate :=
  default (init one_item 0)
    (run one_item "https://registry.npmjs.org" "" idle_schedule
       (init one_item 0)).

(** ** The parser, entry by entry *)

(** The name an entry is recorded under, [None] for an entry the loop
    skips. *)
Definition recorded_name (entry : string * LockEntry) : option string :=
  let '(packageName, version) := parsePackageKey entry.1 in
  if negb (String.eqb packageName "") && negb (String.eqb version "")
  then Some packageName else None.

(** ** What the coordinator prints and files *)

(** The progress lines after [n] outcomes out of [total]. *)
Definition progress_lines (n total : nat) : list output :=
  (fun i => Progress i total) <$> seq 1 n.

(** The standard output so far: one progress line per outcome collected,
    then, once the function has returned, the blank line and the report. *)
Definition transcript (deps : list Dependency) (s : cstate) : Prop :=
  stdout s
  = if returned s
    then (progress_lines (completed s) (length deps)
          ++ NewLine :: report_lines (length deps) (resultMap s))%list
    else progress_lines (completed s) (length deps).

(** Every filed outcome sits at the first position of the work list that
    has its name and version, and carries that position as its index. *)
Definition filed_first (deps : list Dependency) (m : gmap nat AuditResult)
    : Prop :=
  forall i r, m !! i = Some r -> Index r = i /\ find_index deps r 0 = Some i.

(** ** The pipeline of [main] (lines 402-435)

    Steps 1 to 3: parse the lock file, save the tree, enumerate. The
    outcome of [saveDependencyTree] (marshalling and writing the JSON
    artifact) comes from the outside as [save_error]; a failure of either
    step is fatal ([log.Fatalf]). *)
Inductive Prepared : Type :=
| ExitUsage
| FatalParse (e : ParseError)
| FatalSave (err : string)
| ReadyToAudit (config : Config) (dependencies : DependencyTree)
    (deps : list Dependency).

Definition main_prepare (args : list string) (file : LockFile)
    (save_error : option string) (range_order : list string) : Prepared :=
  match main_config args with
  | None => ExitUsage
  | Some config =>
      match parsePnpmLock (lockFilePath config) file with
      | inl e => FatalParse e
      | inr dependencies =>
          match save_error with
          | Some err => FatalSave err
          | None =>
              ReadyToAudit config dependencies
                (fetchDependenciesFromTree range_order dependencies)
          end
      end
  end.

(* ================================================================== *)
(** * Properties *)
(* ================================================================== *)

(** ** Strings *)

Section StringFacts.
Variable c : ascii.

Lemma Contains_app s t :
  Contains (s +:+ t) c = Contains s c || Contains t c.
Proof.
  induction s as [|a s IH]; simpl; [done|].
  destruct (Ascii.eqb a c); [done|apply IH].
Qed.

Lemma LastIndex_absent s : Contains s c = false -> LastIndex s c = -1.
Proof.
  induction s as [|a s IH]; simpl; [done|].
  destruct (Ascii.eqb a c); [done|].
  intros H. rewrite (IH H). reflexivity.
Qed.

Lemma LastIndex_bound s : -1 <= LastIndex s c < Z.of_nat (String.length s).
Proof.
  induction s as [|a s IH]; simpl; [lia|].
  destruct (0 <=? LastIndex s c) eqn:E; [lia|].
  destruct (Ascii.eqb a c); lia.
Qed.

Lemma LastIndex_cut n v :
  Contains v c = false ->
  LastIndex (n +:+ String c v) c = Z.of_nat (String.length n).
Proof.
  intros Hv. induction n as [|a n IH]; simpl.
  - rewrite (LastIndex_absent _ Hv). simpl. by rewrite Ascii.eqb_refl.
  - rewrite IH.
    destruct (0 <=? Z.of_nat (String.length n)) eqn:E; lia.
Qed.

Lemma slice_to_app n t : slice_to (n +:+ t) (String.length n) = n.
Proof. induction n as [|a n IH]; simpl; [by destruct t|by rewrite IH]. Qed.

Lemma slice_from_app n t : slice_from (n +:+ t) (String.length n) = t.
Proof. induction n as [|a n IH]; simpl; [by destruct t|done]. Qed.

Lemma slice_from_cut n v :
  slice_from (n +:+ String c v) (S (String.length n)) = v.
Proof. induction n as [|a n IH]; simpl; [by destruct v|done]. Qed.

Lemma SplitN2_absent s : Contains s c = false -> SplitN2 s c = [s].
Proof.
  induction s as [|a s IH]; simpl; [done|].
  destruct (Ascii.eqb a c); [done|].
  intros H. by rewrite (IH H).
Qed.

Lemma SplitN2_cut n v :
  Contains n c = false -> SplitN2 (n +:+ String c v) c = [n; v].
Proof.
  induction n as [|a n IH]; simpl.
  - by rewrite Ascii.eqb_refl.
  - destruct (Ascii.eqb a c); [done|].
    intros H. by rewrite (IH H).
Qed.

(** A string that contains [c] can be cut at its first and at its last [c]. *)
Lemma first_cut s :
  Contains s c = true ->
  exists n v, s = n +:+ String c v /\ Contains n c = false.
Proof.
  induction s as [|a s IH]; simpl; [done|].
  destruct (Ascii.eqb a c) eqn:E.
  - apply Ascii.eqb_eq in E as ->. intros _. by exists EmptyString, s.
  - intros H. destruct (IH H) as (n & v & -> & Hn).
    exists (String a n), v. simpl. by rewrite E.
Qed.

Lemma last_cut s :
  Contains s c = true ->
  exists n v, s = n +:+ String c v /\ Contains v c = false.
Proof.
  induction s as [|a s IH]; simpl; [done|].
  destruct (Contains s c) eqn:Hs.
  - intros _. destruct (IH eq_refl) as (n & v & -> & Hv).
    by exists (String a n), v.
  - destruct (Ascii.eqb a c) eqn:E; [|done].
    apply Ascii.eqb_eq in E as ->. intros _. by exists EmptyString, s.
Qed.

(** The two cuts are unique. *)
Lemma first_cut_unique n v n' v' :
  n +:+ String c v = n' +:+ String c v' ->
  Contains n c = false -> Contains n' c = false -> n = n' /\ v = v'.
Proof.
  revert n'. induction n as [|a n IH]; intros [|a' n']; simpl.
  - by intros [= ->].
  - intros [= <- _]. by rewrite Ascii.eqb_refl.
  - intros [= -> _]. by rewrite Ascii.eqb_refl.
  - intros [= -> H]. destruct (Ascii.eqb a' c); [done|].
    intros Hn Hn'. destruct (IH _ H Hn Hn') as [-> ->]. done.
Qed.
End StringFacts.

(** ** Lockfile parser: splitting keys *)

Lemma HasPrefix_at (s : string) :
  HasPrefix s "@" = match s with
                    | String a _ => Ascii.eqb a at_sign
                    | EmptyString => false
                    end.
Proof.
  unfold HasPrefix. destruct s as [|a s]; [done|].
  cbn [String.prefix].
  destruct (ascii_dec "@" a) as [<-|Hne]; [by destruct s|].
  symmetry. apply Ascii.eqb_neq. by intros ->.
Qed.

Lemma nonempty_length (s : string) : s <> EmptyString -> (0 < String.length s)%nat.
Proof. destruct s; simpl; [done|lia]. Qed.

Lemma parsePackageKey_scoped (name version : string) :
  HasPrefix (name +:+ String at_sign version) "@" = true ->
  Contains version at_sign = false ->
  parsePackageKey (name +:+ String at_sign version)
  = if String.eqb name "" then (EmptyString, EmptyString) else (name, version).
Proof.
  intros Hpre Hv. unfold parsePackageKey. rewrite Hpre.
  rewrite (LastIndex_cut _ _ _ Hv).
  destruct (String.eqb_spec name "") as [->|Hne]; [done|].
  apply nonempty_length in Hne.
  destruct (0 <? Z.of_nat (String.length name)) eqn:E; [|lia].
  rewrite Nat2Z.id.
  replace (Z.to_nat (Z.of_nat (String.length name) + 1))
    with (S (String.length name)) by lia.
  by rewrite slice_to_app, slice_from_cut.
Qed.

Lemma parsePackageKey_plain (name version : string) :
  HasPrefix (name +:+ String at_sign version) "@" = false ->
  Contains name at_sign = false ->
  parsePackageKey (name +:+ String at_sign version) = (name, version).
Proof.
  intros Hpre Hn. unfold parsePackageKey. rewrite Hpre.
  by rewrite (SplitN2_cut _ _ _ Hn).
Qed.

Lemma parsePackageKey_no_at (key : string) :
  Contains key at_sign = false ->
  parsePackageKey key = (EmptyString, EmptyString).
Proof.
  intros H. unfold parsePackageKey. rewrite HasPrefix_at.
  destruct key as [|a key]; [done|].
  simpl in H. destruct (Ascii.eqb a at_sign) eqn:E; [done|].
  assert (Contains (String a key) at_sign = false) as H' by (simpl; by rewrite E).
  by rewrite (SplitN2_absent _ _ H').
Qed.

Lemma parsePackageKey_spec_split (key name version : string) :
  spec_split key name version ->
  parsePackageKey key
  = if HasPrefix key "@" && String.eqb name ""
    then (EmptyString, EmptyString) else (name, version).
Proof.
  intros [-> Hcut].
  destruct (HasPrefix (name +:+ String at_sign version) "@") eqn:Hpre; simpl.
  - by apply parsePackageKey_scoped.
  - by apply parsePackageKey_plain.
Qed.

Lemma processEntry_kept (key name version : string) tree info :
  parsePackageKey key = (name, version) ->
  name <> EmptyString -> version <> EmptyString ->
  processEntry tree (key, info) = <[name := declared version info]> tree.
Proof.
  intros Hk Hn Hv. unfold processEntry. rewrite Hk.
  apply String.eqb_neq in Hn, Hv. by rewrite Hn, Hv.
Qed.

Lemma processEntry_dropped (key name version : string) :
  parsePackageKey key = (name, version) ->
  name = EmptyString \/ version = EmptyString ->
  discarded key.
Proof.
  intros Hk Hnv tree info. unfold processEntry. rewrite Hk.
  destruct Hnv as [-> | ->]; simpl; [done|].
  by rewrite andb_false_r.
Qed.

Lemma parsePackages_app l1 l2 :
  parsePackages (l1 ++ l2) = fold_left processEntry l2 (parsePackages l1).
Proof. unfold parsePackages. apply fold_left_app. Qed.

Lemma parsePackages_skip key info before after :
  discarded key ->
  parsePackages (before ++ (key, info) :: after) = parsePackages (before ++ after).
Proof.
  intros Hd. rewrite !parsePackages_app. cbn [fold_left]. by rewrite Hd.
Qed.

(** C3. A lock key that begins with [@] is cut at its last [@], any other
    key at its first [@]; the part before is the name and the part after
    the version. A key with no such cut, or whose cut leaves the name or the
    version empty, is dropped: the tree is unchanged, the other entries are
    parsed as if the key were not there, and the parse does not fail. *)
Theorem C3_key_splitting :
  forall (key : string) (info : LockEntry),
    (forall name version,
        spec_split key name version ->
        (name <> EmptyString /\ version <> EmptyString ->
         parsePackageKey key = (name, version)
         /\ forall tree,
             processEntry tree (key, info)
             = <[name := declared version info]> tree)
        /\ (name = EmptyString \/ version = EmptyString -> discarded key))
    /\ ((forall name version, ~ spec_split key name version) -> discarded key)
    /\ (discarded key ->
        forall path before after,
          parsePnpmLock path (FileDecoded (before ++ (key, info) :: after))
          = inr (parsePackages (before ++ after)))
    /\ parsePackageKey "@cypress/listr-verbose-renderer@0.4.1"
       = ("@cypress/listr-verbose-renderer", "0.4.1").
Proof.
  intros key info. split; [|split; [|split]].
  - intros name version Hs. pose proof (parsePackageKey_spec_split _ _ _ Hs) as Hk.
    split.
    + intros [Hn Hv].
      apply String.eqb_neq in Hn as Hn'. rewrite Hn', andb_false_r in Hk.
      split; [done|]. intros tree. by apply processEntry_kept.
    + intros Hnv.
      destruct (HasPrefix key "@" && String.eqb name "") eqn:E.
      * eapply processEntry_dropped; [exact Hk|by left].
      * eapply processEntry_dropped; [exact Hk|done].
  - intros Hno.
    destruct (Contains key at_sign) eqn:Hc.
    + exfalso. destruct (HasPrefix key "@") eqn:Hpre.
      * destruct (last_cut _ _ Hc) as (n & v & Heq & Hv).
        apply (Hno n v). split; [done|]. by rewrite Hpre.
      * destruct (first_cut _ _ Hc) as (n & v & Heq & Hn).
        apply (Hno n v). split; [done|]. by rewrite Hpre.
    + eapply processEntry_dropped; [by apply parsePackageKey_no_at|by left].
  - intros Hd path before after. simpl. f_equal. by apply parsePackages_skip.
  - reflexivity.
Qed.

(** C3 at the keys [abbrev@1.1.1] (kept) and [abbrev] (dropped). *)
Lemma C3_key_splitting_witness :
  (parsePackageKey "abbrev@1.1.1" = ("abbrev", "1.1.1")
   /\ forall tree : DependencyTree,
       processEntry tree ("abbrev@1.1.1", ∅)
       = <["abbrev" := declared "1.1.1" ∅]> tree)
  /\ discarded "abbrev".
Proof.
  split.
  - apply (proj1 (C3_key_splitting "abbrev@1.1.1" ∅) "abbrev" "1.1.1").
    + split; reflexivity.
    + split; discriminate.
  - apply (proj1 (proj2 (C3_key_splitting "abbrev" ∅))).
    intros name version [Heq Hn]. simpl in Hn.
    assert (Contains "abbrev" at_sign = true) as Habs.
    { rewrite Heq, Contains_app. cbn [Contains].
      by rewrite Ascii.eqb_refl, orb_true_r. }
    discriminate Habs.
Defined.

(** ** Lockfile parser: the names in the tree *)

Lemma SplitN2_head (c : ascii) (s : string) :
  match SplitN2 s c with
  | p :: _ => Contains p c = false
  | [] => False
  end.
Proof.
  induction s as [|a s IH]; simpl; [done|].
  destruct (Ascii.eqb a c) eqn:E; [done|].
  destruct (SplitN2 s c) as [|p ps]; [done|]. simpl. by rewrite E.
Qed.

Lemma parsePackageKey_name (key name version : string) :
  parsePackageKey key = (name, version) ->
  name <> EmptyString ->
  HasPrefix name "@" = false -> Contains name at_sign = false.
Proof.
  unfold parsePackageKey. destruct (HasPrefix key "@") eqn:Hpre.
  - destruct (0 <? LastIndex key at_sign) eqn:Hpos; [|by intros [= <- _]].
    intros [= <- _] _. rewrite HasPrefix_at in Hpre.
    destruct key as [|a key]; [done|].
    destruct (Z.to_nat (LastIndex (String a key) at_sign)) as [|k] eqn:Hk; [lia|].
    rewrite HasPrefix_at. cbn [slice_to]. by rewrite Hpre.
  - pose proof (SplitN2_head at_sign key) as Hh.
    destruct (SplitN2 key at_sign) as [|p [|q [|r rest]]];
      by intros [= <- _].
Qed.

Lemma processEntry_names tree entry :
  (forall name info, tree !! name = Some info -> name_ok name) ->
  forall name info, processEntry tree entry !! name = Some info -> name_ok name.
Proof.
  intros Htree name info. destruct entry as [key e]. unfold processEntry.
  destruct (parsePackageKey key) as [n v] eqn:Hk.
  destruct (String.eqb_spec n "") as [->|Hn]; simpl; [apply Htree|].
  destruct (String.eqb_spec v "") as [->|Hv]; simpl; [apply Htree|].
  destruct (decide (n = name)) as [<-|Hne].
  - intros _. split; [done|]. by eapply parsePackageKey_name.
  - rewrite lookup_insert_ne by done. apply Htree.
Qed.

Lemma fold_processEntry_names entries tree :
  (forall name info, tree !! name = Some info -> name_ok name) ->
  forall name info,
    fold_left processEntry entries tree !! name = Some info -> name_ok name.
Proof.
  revert tree. induction entries as [|e entries IH]; intros tree Htree; [done|].
  simpl. apply IH. by apply processEntry_names.
Qed.

(** C7 (as amended). Every package name in the tree the parser produces is
    non-empty, and a name that does not begin with the scope marker [@]
    contains no [@]. *)
Theorem C7_names_in_tree :
  forall (path : string) (file : LockFile) (tree : DependencyTree),
    parsePnpmLock path file = inr tree ->
    forall name info,
      tree !! name = Some info ->
      name <> EmptyString
      /\ (HasPrefix name "@" = false -> Contains name at_sign = false).
Proof.
  intros path file tree Hp name info Hl.
  destruct file; try discriminate Hp. injection Hp as <-.
  eapply fold_processEntry_names; [|exact Hl].
  intros n i. by rewrite lookup_empty.
Qed.

Lemma C7_names_in_tree_witness :
  "abbrev" <> EmptyString
  /\ (HasPrefix "abbrev" "@" = false -> Contains "abbrev" at_sign = false).
Proof.
  apply (C7_names_in_tree "pnpm-lock.yaml"
           (FileDecoded [("abbrev@1.1.1", ∅)])
           (parsePackages [("abbrev@1.1.1", ∅)]) eq_refl
           "abbrev" (declared "1.1.1" ∅)).
  vm_compute. reflexivity.
Defined.

(** C7 as stated fails: the scoped key [@scope/pkg@1.0.0] is recorded under
    the name [@scope/pkg], which contains [@]. *)
Lemma C7_counterexample :
  ~ (forall (path : string) (file : LockFile) (tree : DependencyTree),
        parsePnpmLock path file = inr tree ->
        forall name info,
          tree !! name = Some info ->
          name <> EmptyString /\ Contains name at_sign = false).
Proof.
  intros H.
  destruct (H "pnpm-lock.yaml" (FileDecoded [("@scope/pkg@1.0.0", ∅)])
              _ eq_refl "@scope/pkg" (declared "1.0.0" ∅)) as [_ Habs].
  - vm_compute. reflexivity.
  - vm_compute in Habs. discriminate Habs.
Qed.

(** ** Registry prober *)

Section SplitFacts.
Variable c : ascii.

Lemma Split_absent s : Contains s c = false -> Split s c = [s].
Proof.
  induction s as [|a s IH]; simpl; [done|].
  destruct (Ascii.eqb a c); [done|].
  intros H. by rewrite (IH H).
Qed.

Lemma Split_cut p t :
  exists l, l <> [] /\ Split (p +:+ String c t) c = (l ++ Split t c)%list.
Proof.
  induction p as [|a p (l & Hl & IH)]; simpl.
  - rewrite Ascii.eqb_refl. by exists [EmptyString].
  - rewrite IH. destruct (Ascii.eqb a c).
    + by exists (EmptyString :: l).
    + destruct l as [|q l]; [done|]. by exists (String a q :: l).
Qed.

Lemma Split_present s :
  Contains s c = true -> (2 <= length (Split s c))%nat.
Proof.
  intros H. destruct (first_cut _ _ H) as (p & t & -> & _).
  destruct (Split_cut p t) as (l & Hl & ->).
  rewrite length_app. destruct l; [done|].
  destruct t; simpl; [lia|].
  destruct (Ascii.eqb _ c); simpl; [lia|]. destruct (Split t c); simpl; lia.
Qed.

Lemma last_part_cut p seg :
  Contains seg c = false -> last_part (Split (p +:+ String c seg) c) = seg.
Proof.
  intros H. destruct (Split_cut p seg) as (l & _ & ->).
  rewrite (Split_absent _ H). unfold last_part. apply last_last.
Qed.
End SplitFacts.

Lemma checkNpmRegistry_unfold name version type base token :
  checkNpmRegistry name version type base token
  = match packageURL base name version with
    | None =>
        Ret (failed name version type statusInvalidScoped
               "invalid scoped package format")
    | Some url =>
        NewRequest "GET" url (fun err =>
          match err with
          | Some err => Ret (failed name version type statusRequestFailed err)
          | None =>
              ClientDo url (authorization token) (fun resp =>
                match resp with
                | inl err =>
                    Ret (failed name version type statusRequestFailed err)
                | inr code => Ret (responded name version type code)
                end)
          end)
    end.
Proof.
  unfold checkNpmRegistry, packageURL.
  destruct (HasPrefix name "@"); [|done].
  by destruct (2 <=? length (Split name slash))%nat.
Qed.

Lemma run_probe_frame name version type base token env :
  dep_of (run_probe env (checkNpmRegistry name version type base token))
  = mkDependency name version type.
Proof.
  rewrite checkNpmRegistry_unfold.
  destruct (packageURL base name version) as [url|]; simpl; [|done].
  destruct (new_request env "GET" url); simpl; [done|].
  by destruct (client_do env url (authorization token)).
Qed.

(** C10. On every path of the prober (malformed scoped name, refused
    request, transport failure, any response) the outcome carries the name,
    the version and the type it was given. *)
Theorem C10_prober_frame :
  forall (name version type base token : string) (env : Env),
    let r := run_probe env (checkNpmRegistry name version type base token) in
    Name r = name /\ rVersion r = version /\ rType r = type.
Proof.
  intros name version type base token env r.
  pose proof (run_probe_frame name version type base token env) as H.
  fold r in H. unfold dep_of in H. by injection H.
Qed.

Lemma statusUnexpected_other code :
  statusUnexpected code <> statusAvailable
  /\ statusUnexpected code <> statusBlocked
  /\ statusUnexpected code <> statusNotFound.
Proof.
  unfold statusUnexpected, statusAvailable, statusBlocked, statusNotFound.
  cbn [String.append]. repeat split; discriminate.
Qed.

Lemma statusOf_cases code :
  (statusOf code = statusAvailable <-> code = 200)
  /\ (statusOf code = statusBlocked <-> code = 403)
  /\ (statusOf code = statusNotFound <-> code = 404)
  /\ (code <> 200 -> code <> 403 -> code <> 404 ->
      statusOf code = statusUnexpected code).
Proof.
  destruct (statusUnexpected_other code) as (H1 & H2 & H3).
  unfold statusOf.
  destruct (Z.eqb_spec code 200) as [->|N1].
  { repeat split; try done; try discriminate. }
  destruct (Z.eqb_spec code 403) as [->|N2].
  { repeat split; try done; try discriminate. }
  destruct (Z.eqb_spec code 404) as [->|N3].
  { repeat split; try done; try discriminate. }
  repeat split; try done.
Qed.

(** C5. When the registry answers the probe's GET with a status code, the
    outcome keeps that code and its status is [Available] exactly for 200,
    [Blocked] exactly for 403, [NotFound] exactly for 404 and [Unexpected]
    with the code for every other; when the GET fails without a response,
    the status is [RequestFailed] and the cause is kept. *)
Theorem C5_status_classification :
  forall (name version type base token : string) (env : Env) url auth,
    let r := run_probe env (checkNpmRegistry name version type base token) in
    network_calls env (checkNpmRegistry name version type base token)
    = [(url, auth)] ->
    (forall code,
        client_do env url auth = inr code ->
        StatusCode r = code /\ Error r = None
        /\ (Status r = statusAvailable <-> code = 200)
        /\ (Status r = statusBlocked <-> code = 403)
        /\ (Status r = statusNotFound <-> code = 404)
        /\ (code <> 200 -> code <> 403 -> code <> 404 ->
            Status r = statusUnexpected code))
    /\ (forall err,
           client_do env url auth = inl err ->
           Status r = statusRequestFailed /\ Error r = Some err).
Proof.
  intros name version type base token env url auth r. subst r.
  rewrite checkNpmRegistry_unfold.
  destruct (packageURL base name version) as [u|]; simpl; [|done].
  destruct (new_request env "GET" u); simpl; [done|].
  destruct (client_do env u (authorization token)) as [e|code] eqn:Hdo;
    simpl; intros [= <- <-]; rewrite Hdo; (split; [intros ? [= <-]|intros ? [= <-]]).
  - done.
  - split; [done|]. split; [done|]. apply statusOf_cases.
Qed.

(** C5 on the probe of [left-pad] 1.3.0 answered with 404. *)
Lemma C5_status_classification_witness :
  let env := mkEnv (fun _ _ => None) (fun _ _ => inr 404) in
  let p := checkNpmRegistry "left-pad" "1.3.0" "package"
             "https://registry.npmjs.org" "" in
  network_calls env p
  = [("https://registry.npmjs.org/left-pad/-/left-pad-1.3.0.tgz", None)]
  /\ Status (run_probe env p) = statusNotFound
  /\ StatusCode (run_probe env p) = 404.
Proof.
  intros env p. split; [reflexivity|].
  destruct (C5_status_classification "left-pad" "1.3.0" "package"
              "https://registry.npmjs.org" "" env _ _ eq_refl) as [H _].
  destruct (H 404 eq_refl) as (Hc & _ & _ & _ & Hnf & _).
  split; [by apply Hnf|exact Hc].
Defined.

Lemma packageURL_scoped base name version prefix seg :
  HasPrefix name "@" = true ->
  name = prefix +:+ String slash seg ->
  Contains seg slash = false ->
  packageURL base name version = Some (tarballURL base name seg version).
Proof.
  intros Hpre Hname Hseg. unfold packageURL. rewrite Hpre.
  assert (Contains name slash = true) as Hc.
  { rewrite Hname, Contains_app. cbn [Contains].
    by rewrite Ascii.eqb_refl, orb_true_r. }
  apply Split_present, Nat.leb_le in Hc. rewrite Hc.
  by rewrite Hname at 2; rewrite last_part_cut.
Qed.

Lemma packageURL_malformed base name version :
  HasPrefix name "@" = true ->
  Contains name slash = false ->
  packageURL base name version = None.
Proof.
  intros Hpre Hc. unfold packageURL. by rewrite Hpre, (Split_absent _ _ Hc).
Qed.

(** The first thing a probe does with the outside world: the URL it builds
    a request for, if any. *)
Lemma requested_url_get name version type base token url :
  packageURL base name version = Some url ->
  (exists k, checkNpmRegistry name version type base token
             = NewRequest "GET" url k)
  /\ forall env,
      new_request env "GET" url = None ->
      network_calls env (checkNpmRegistry name version type base token)
      = [(url, authorization token)].
Proof.
  intros Hu. rewrite checkNpmRegistry_unfold, Hu. split; [by eexists|].
  intros env Hreq. simpl. rewrite Hreq. simpl.
  by destruct (client_do env url (authorization token)).
Qed.

(** C6. For a name that begins with [@] and contains a [/], the probe
    requests [<base>/<name>/-/<seg>-<version>.tgz], [seg] being what follows
    the last [/]; for a name that does not begin with [@] it requests
    [<base>/<name>/-/<name>-<version>.tgz]; for a name that begins with [@]
    and has no [/] the outcome is the invalid-scoped-format error and
    nothing is sent. *)
Theorem C6_probe_url :
  forall (name version type base token : string),
    (forall prefix seg,
        HasPrefix name "@" = true ->
        name = prefix +:+ String slash seg ->
        Contains seg slash = false ->
        let url := base +:+ "/" +:+ name +:+ "/-/" +:+ seg +:+ "-"
                   +:+ version +:+ ".tgz" in
        (exists k, checkNpmRegistry name version type base token
                   = NewRequest "GET" url k)
        /\ forall env,
            new_request env "GET" url = None ->
            network_calls env (checkNpmRegistry name version type base token)
            = [(url, authorization token)])
    /\ (HasPrefix name "@" = false ->
        let url := base +:+ "/" +:+ name +:+ "/-/" +:+ name +:+ "-"
                   +:+ version +:+ ".tgz" in
        (exists k, checkNpmRegistry name version type base token
                   = NewRequest "GET" url k)
        /\ forall env,
            new_request env "GET" url = None ->
            network_calls env (checkNpmRegistry name version type base token)
            = [(url, authorization token)])
    /\ (HasPrefix name "@" = true ->
        Contains name slash = false ->
        checkNpmRegistry name version type base token
        = Ret (mkAuditResult 0 name version type statusInvalidScoped 0
                 (Some "invalid scoped package format"))
        /\ forall env,
            network_calls env (checkNpmRegistry name version type base token)
            = []).
Proof.
  intros name version type base token. split; [|split].
  - intros prefix seg Hpre Hname Hseg url.
    apply requested_url_get. by eapply packageURL_scoped.
  - intros Hpre url. apply requested_url_get.
    unfold packageURL. by rewrite Hpre.
  - intros Hpre Hc.
    rewrite checkNpmRegistry_unfold, (packageURL_malformed _ _ _ Hpre Hc).
    done.
Qed.

(** C6 on [@scope/pkg] 1.0.0, on [left-pad] 1.3.0 and on [@scope]. *)
Lemma C6_probe_url_witness :
  let env := mkEnv (fun _ _ => None) (fun _ _ => inr 200) in
  network_calls env (checkNpmRegistry "@scope/pkg" "1.0.0" "package" "https://r" "")
  = [("https://r/@scope/pkg/-/pkg-1.0.0.tgz", None)]
  /\ network_calls env (checkNpmRegistry "left-pad" "1.3.0" "package" "https://r" "t")
     = [("https://r/left-pad/-/left-pad-1.3.0.tgz", Some "Bearer t")]
  /\ network_calls env (checkNpmRegistry "@scope" "1.0.0" "package" "https://r" "")
     = [].
Proof.
  intros env. split; [|split].
  - apply (proj1 (C6_probe_url "@scope/pkg" "1.0.0" "package" "https://r" "")
             "@scope" "pkg" eq_refl eq_refl eq_refl).
    reflexivity.
  - apply (proj1 (proj2 (C6_probe_url "left-pad" "1.3.0" "package" "https://r" "t"))
             eq_refl).
    reflexivity.
  - apply (proj2 (proj2 (C6_probe_url "@scope" "1.0.0" "package" "https://r" ""))
             eq_refl eq_refl).
Defined.

(** ** Dependency enumerator *)

Lemma leb_cons a s b t :
  String.leb (String a s) (String b t) = true
  <-> (N_of_ascii a < N_of_ascii b)%N \/ (a = b /\ String.leb s t = true).
Proof.
  unfold String.leb. cbn [String.compare]. unfold Ascii.compare.
  destruct (N.compare_spec (N_of_ascii a) (N_of_ascii b)) as [E|L|G].
  - assert (a = b) as ->.
    { by rewrite <- (ascii_N_embedding a), <- (ascii_N_embedding b), E. }
    split; [by right|]. intros [H|[_ H]]; [lia|done].
  - split; [by left|done].
  - split; [done|]. intros [H|[-> _]]; lia.
Qed.

#[global] Instance str_le_trans : Transitive str_le.
Proof.
  unfold str_le. intros a. induction a as [|x a IH]; intros b c.
  - by destruct c.
  - destruct b as [|y b]; [done|]. destruct c as [|z c].
    + intros _ H. by destruct b.
    + rewrite !leb_cons. intros [H1|[-> H1]] [H2|[-> H2]].
      * left. lia.
      * by left.
      * by left.
      * right. split; [done|]. by eapply IH.
Qed.

#[global] Instance str_le_total : Total str_le.
Proof. intros a b. apply String.leb_total. Qed.

#[global] Instance str_le_antisym : AntiSymm eq str_le.
Proof. intros a b. apply String.leb_antisym. Qed.

Lemma sort_Strings_perm l : sort_Strings l ≡ₚ l.
Proof. apply merge_sort_Permutation. Qed.

Lemma sort_Strings_sorted l : StronglySorted str_le (sort_Strings l).
Proof. apply StronglySorted_merge_sort; apply _. Qed.

Lemma sort_Strings_order l l' : l ≡ₚ l' -> sort_Strings l = sort_Strings l'.
Proof.
  intros H. apply (StronglySorted_unique str_le); try apply sort_Strings_sorted.
  by rewrite !sort_Strings_perm.
Qed.

Lemma sorted_strict (l : list string) :
  StronglySorted str_le l -> NoDup l -> StronglySorted str_lt l.
Proof.
  induction 1 as [|x l Hl IH Hx]; intros Hnd; constructor.
  - apply IH. by apply NoDup_cons in Hnd as [_ ?].
  - apply NoDup_cons in Hnd as [Hnx _].
    apply Forall_forall. intros y Hy. split.
    + by apply (proj1 (Forall_forall _ _) Hx).
    + intros ->. by apply Hnx.
Qed.

Lemma sorted_rank (l : list string) i x :
  StronglySorted str_lt l -> l !! i = Some x -> rank l x = i.
Proof.
  unfold rank. intros Hs. revert i.
  induction Hs as [|y l Hl IH Hy]; intros i Hi; [done|].
  rewrite Forall_forall in Hy.
  destruct i as [|i]; simpl in Hi.
  - injection Hi as ->. rewrite filter_cons_False.
    + destruct (filter (fun n => str_lt n x) l) as [|z zs] eqn:E; [done|].
      assert (z ∈ filter (fun n => str_lt n x) l) as Hz by (rewrite E; left).
      apply list_elem_of_filter in Hz as [[Hzx Hne] Hz].
      destruct (Hy z Hz) as [Hxz _].
      exfalso. apply Hne. by apply (anti_symm str_le).
    + intros [_ Hne]. done.
  - rewrite filter_cons_True.
    + simpl. f_equal. by apply IH.
    + apply Hy. by eapply list_elem_of_lookup_2.
Qed.

Lemma fetch_names order (tree : DependencyTree) :
  dName <$> fetchDependenciesFromTree order tree = sort_Strings order.
Proof.
  unfold fetchDependenciesFromTree. rewrite <- list_fmap_compose.
  apply list_fmap_id.
Qed.

(** C8. The enumerator yields one work item per record of the tree, with
    the record's version and type, sorted by name in strictly ascending
    byte order; the position of an item in the list is its 0-based rank in
    that order; and whichever order the map is ranged over, now or on a
    repeat run over the same tree, the list is the same. *)
Theorem C8_enumerator :
  forall (tree : DependencyTree) (order : list string),
    is_range_order order tree ->
    let work := fetchDependenciesFromTree order tree in
    length work = size tree
    /\ (forall name info,
           tree !! name = Some info ->
           mkDependency name (Version info) (Type_ info) ∈ work)
    /\ StronglySorted str_lt (dName <$> work)
    /\ (forall i d, work !! i = Some d -> i = rank order (dName d))
    /\ (forall order',
           is_range_order order' tree ->
           fetchDependenciesFromTree order' tree = work).
Proof.
  intros tree order Ho work.
  assert (NoDup (sort_Strings order)) as Hnd.
  { rewrite sort_Strings_perm, Ho. apply NoDup_fst_map_to_list. }
  assert (StronglySorted str_lt (dName <$> work)) as Hsorted.
  { subst work. rewrite fetch_names.
    apply sorted_strict; [apply sort_Strings_sorted|done]. }
  split; [|split; [|split; [done|split]]].
  - subst work. unfold fetchDependenciesFromTree.
    rewrite length_map, sort_Strings_perm, Ho, length_fmap.
    by rewrite length_map_to_list.
  - intros name info Hl. subst work. unfold fetchDependenciesFromTree.
    apply list_elem_of_In, in_map_iff. exists name. rewrite Hl. split; [done|].
    apply list_elem_of_In. rewrite sort_Strings_perm, Ho.
    apply list_elem_of_fmap. exists (name, info). split; [done|].
    by apply elem_of_map_to_list.
  - intros i d Hi.
    assert ((dName <$> work) !! i = Some (dName d)) as Hi'.
    { by rewrite list_lookup_fmap, Hi. }
    rewrite <- (sorted_rank _ _ _ Hsorted Hi'). unfold rank.
    subst work. by rewrite fetch_names, sort_Strings_perm.
  - intros order' Ho'. subst work. unfold fetchDependenciesFromTree.
    rewrite (sort_Strings_order order' order); [done|].
    unfold is_range_order in *. by rewrite Ho, Ho'.
Qed.

(** C8 on the tree of [b@1], [a@2] and [@c/d@3], ranged over as [b, a, @c/d]. *)
Lemma C8_enumerator_witness :
  let tree := parsePackages [("b@1", ∅); ("a@2", ∅); ("@c/d@3", ∅)] in
  is_range_order ["b"; "a"; "@c/d"] tree
  /\ fetchDependenciesFromTree ["b"; "a"; "@c/d"] tree
     = [mkDependency "@c/d" "3" "package"; mkDependency "a" "2" "package";
        mkDependency "b" "1" "package"]
  /\ length (fetchDependenciesFromTree ["b"; "a"; "@c/d"] tree) = size tree.
Proof.
  intros tree.
  assert (is_range_order ["b"; "a"; "@c/d"] tree) as Ho.
  { unfold is_range_order.
    apply NoDup_Permutation.
    - by apply (bool_decide_unpack _); vm_compute.
    - apply NoDup_fst_map_to_list.
    - intros x. rewrite list_elem_of_fmap.
      split.
      + intros Hx. apply list_elem_of_In in Hx. simpl in Hx.
        destruct Hx as [<-|[<-|[<-|[]]]].
        * exists ("b", declared "1" ∅). split; [done|].
          apply elem_of_map_to_list. by vm_compute.
        * exists ("a", declared "2" ∅). split; [done|].
          apply elem_of_map_to_list. by vm_compute.
        * exists ("@c/d", declared "3" ∅). split; [done|].
          apply elem_of_map_to_list. by vm_compute.
      + intros ([k v] & -> & Hkv). apply elem_of_map_to_list in Hkv.
        simpl. subst tree. unfold parsePackages in Hkv. simpl in Hkv.
        apply lookup_insert_Some in Hkv as [[<- _]|[_ Hkv]]; [set_solver|].
        apply lookup_insert_Some in Hkv as [[<- _]|[_ Hkv]]; [set_solver|].
        apply lookup_insert_Some in Hkv as [[<- _]|[_ Hkv]]; [set_solver|].
        by rewrite lookup_empty in Hkv. }
  split; [exact Ho|]. split; [by vm_compute|].
  exact (proj1 (C8_enumerator tree _ Ho)).
Defined.

(** ** Concurrent audit coordinator *)

(** Case analysis on the action taken and on what [exec] tested. *)
Ltac exec_cases H :=
  match type of H with
  | exec _ _ _ ?a _ = Some _ =>
      destruct a; cbn [exec] in H;
      repeat match type of H with
        | context [match ?x with _ => _ end] =>
            destruct x eqn:?; try discriminate H
        end;
      injection H as <-; unfold set_worker in *;
      cbn [pending jobs jobs_closed workers wg results results_closed
           resultMap completed stdout returned probed] in *
  end.

Lemma insert_split {A} (l : list A) (i : nat) (old new : A) :
  l !! i = Some old ->
  exists l1 l2, l = (l1 ++ old :: l2)%list /\ <[i:=new]> l = (l1 ++ new :: l2)%list.
Proof.
  intros H. exists (take i l), (drop (S i) l). split.
  - by rewrite take_drop_middle.
  - apply insert_take_drop. by eapply lookup_lt_Some.
Qed.

Lemma weight_insert (ws : list wstate) (w : nat) (old new : wstate) :
  ws !! w = Some old ->
  (sum_list_with worker_weight (<[w:=new]> ws) + worker_weight old
   = sum_list_with worker_weight ws + worker_weight new)%nat.
Proof.
  intros H. destruct (insert_split _ _ _ new H) as (l1 & l2 & -> & ->).
  rewrite !sum_list_with_app. simpl. lia.
Qed.

Lemma dep_eta (d : Dependency) :
  mkDependency (dName d) (dVersion d) (dType d) = d.
Proof. by destruct d. Qed.

Lemma running_insert (ws : list wstate) (w : nat) (old new : wstate) :
  ws !! w = Some old ->
  (length (filter running (<[w:=new]> ws)) + (if decide (running old) then 1 else 0)
   = length (filter running ws) + (if decide (running new) then 1 else 0))%nat.
Proof.
  intros H. destruct (insert_split _ _ _ new H) as (l1 & l2 & -> & ->).
  rewrite !filter_app, !filter_cons, !length_app.
  destruct (decide (running old)), (decide (running new)); simpl; lia.
Qed.

Lemma exited_insert (ws : list wstate) (w : nat) (old new : wstate) :
  ws !! w = Some old -> new <> WExited ->
  WExited ∈ <[w:=new]> ws -> WExited ∈ ws.
Proof.
  intros H Hnew. destruct (insert_split _ _ _ new H) as (l1 & l2 & -> & ->).
  rewrite !elem_of_app, !elem_of_cons. intros [?|[?|?]]; auto. congruence.
Qed.

Lemma report_lines_results total (m : gmap nat AuditResult) :
  omap report_line (report_lines total m) = report_results total m.
Proof.
  unfold report_lines, report_results.
  induction (seq 0 total) as [|i l IH]; [done|].
  simpl. destruct (m !! i); simpl; [f_equal|]; exact IH.
Qed.

Lemma idle_workers (n : nat) :
  filter running (replicate n WReceiving) = replicate n WReceiving
  /\ replicate n WReceiving ≫= held = []
  /\ replicate n WReceiving ≫= undelivered = [].
Proof.
  induction n as [|n (IH1 & IH2 & IH3)]; [done|]. simpl.
  rewrite filter_cons_True by done. by rewrite IH1.
Qed.

Lemma exited_workers (ws : list wstate) :
  filter running ws = [] ->
  (ws <> [] -> WExited ∈ ws)
  /\ ws ≫= held = [] /\ ws ≫= undelivered = [].
Proof.
  induction ws as [|st ws IH]; [done|].
  rewrite filter_cons. destruct (decide (running st)) as [|Hst]; [done|].
  assert (st = WExited) as ->.
  { destruct st; try done; exfalso; by apply Hst. }
  intros H. destruct (IH H) as (_ & H2 & H3).
  rewrite !bind_cons, H2, H3. split; [intros _; left|done].
Qed.

Section Coordinator.
Variable deps : list Dependency.
Variables base token : string.

Lemma steps_left_decreases a s s' :
  exec deps base token a s = Some s' -> (steps_left s' < steps_left s)%nat.
Proof.
  intros H. exec_cases H; unfold steps_left;
    cbn [pending jobs jobs_closed workers wg results results_closed
         resultMap completed stdout returned probed];
    repeat match goal with
      | Hw : workers s !! ?w = Some ?old
        |- context [<[?w := ?new]> (workers s)] =>
          pose proof (weight_insert _ _ _ new Hw); revert Hw
      | Hx : ?f s = _ |- _ => rewrite Hx; clear Hx
      end;
    intros; rewrite ?length_app; simpl in *; lia.
Qed.

Lemma synchronised_step numWorkers a s s' :
  synchronised numWorkers s ->
  exec deps base token a s = Some s' ->
  synchronised numWorkers s'.
Proof.
  intros (Hlen & Hwg & Hclosed & Hexit & Hres) H. unfold synchronised.
  exec_cases H;
    repeat match goal with
      | Hw : workers s !! ?w = Some ?old
        |- context [<[?w := ?new]> (workers s)] =>
          pose proof (running_insert _ _ _ new Hw);
          pose proof (exited_insert _ _ _ new Hw);
          revert Hw
      end; intros;
    rewrite ?length_insert;
    (split; [done|split; [|split; [|split]]]).
  all: try done.
  all: try (simpl in *; lia).
  all: intros Hp;
    repeat match goal with
      | Hx : WExited ∈ <[_:=_]> _ |- _ =>
          eapply exited_insert in Hx; [|eassumption|done]
      | Hi : ?P -> _, Hq : ?P |- _ => specialize (Hi Hq)
      | Hc : _ /\ _ |- _ => destruct Hc
      end; try done; try lia.
Qed.

Lemma accounts_step a s s' received :
  accounts deps s received ->
  exec deps base token a s = Some s' ->
  exists received', accounts deps s' received'.
Proof.
  intros (Hdeps & Hprobed & Hmap & Hdone) H. unfold accounts.
  exec_cases H;
    try match goal with
      | Hw : workers s !! ?w = Some ?old
        |- context [<[?w := ?new]> (workers s)] =>
          destruct (insert_split _ _ _ new Hw) as (l1 & l2 & Hws & ->);
          rewrite Hws in *; clear Hw Hws
      end;
    rewrite ?bind_app, ?bind_cons, ?fmap_app, ?fmap_cons in *;
    cbn [held undelivered] in *;
    rewrite ?run_probe_frame, ?dep_eta;
    match goal with
    | |- context [record_result deps (resultMap s) ?r] =>
        exists (received ++ [r])%list
    | _ => exists received
    end;
    rewrite ?fmap_app, ?fold_left_app, ?length_app; simpl;
    (split; [rewrite Hdeps; solve_Permutation|]);
    (split; [rewrite Hprobed; solve_Permutation|]);
    (split; [by rewrite ?Hmap|lia]).
Qed.

Lemma reported_step a s s' :
  reported deps s ->
  exec deps base token a s = Some s' ->
  reported deps s'.
Proof.
  unfold reported, final_report. intros Hr H.
  exec_cases H; try done;
    repeat match goal with
      | Hx : returned s = _ |- _ => rewrite Hx in Hr
      end;
    try (destruct (returned s); [destruct Hr as (? & ? & ?)|]; by try congruence).
  - destruct (returned s); [|done]. destruct Hr as (Hc & _).
    by rewrite Hc, andb_false_r in Heqb.
  - rewrite omap_app, Hr. done.
  - rewrite omap_app, Hr. cbn [omap list_omap report_line].
    by rewrite report_lines_results.
Qed.

Lemma reachable_invariants numWorkers s :
  reachable deps base token numWorkers s ->
  synchronised numWorkers s
  /\ (exists received, accounts deps s received)
  /\ reported deps s.
Proof.
  unfold reachable. revert s. apply rtc_ind_r.
  2: intros s s' _ [a Ha] (Hs & [received Hacc] & Hr).
  - destruct (idle_workers (Z.to_nat numWorkers)) as (H1 & H2 & H3).
    split; [|split].
    + unfold synchronised, init. simpl. rewrite H1, !length_replicate.
      repeat split; try done.
      all: try match goal with
      | Hin : WExited ∈ _ |- _ => by apply elem_of_replicate in Hin as [[=] _]
      end.
    + exists []. unfold accounts, init. simpl. rewrite H2, H3.
      repeat split; try done. by rewrite !app_nil_r.
    + done.
  - split; [|split].
    + by eapply synchronised_step.
    + by eapply accounts_step.
    + by eapply reported_step.
Qed.

(** Until the function has returned, some goroutine can take a step. *)
Lemma progress numWorkers s :
  reachable deps base token numWorkers s ->
  returned s = false ->
  exists a s', exec deps base token a s = Some s'.
Proof.
  intros Hreach Hret.
  destruct (reachable_invariants _ _ Hreach)
    as ((Hlen & Hwg & Hclosed & Hexit & Hres) & [received Hacc] & Hr).
  destruct Hacc as (Hdeps & _).
  apply Permutation_length in Hdeps. rewrite !length_app in Hdeps.
  destruct (pending s) as [|d l] eqn:Hp.
  2:{ exists ASend. cbn [exec]. rewrite Hp.
      destruct (Nat.ltb_spec (length (jobs s)) (length deps)); [by eexists|].
      simpl in Hdeps. lia. }
  destruct (jobs_closed s) eqn:Hjc.
  2:{ exists ACloseJobs. cbn [exec]. rewrite Hp, Hjc. by eexists. }
  destruct (filter running (workers s)) as [|st sts] eqn:Hrun.
  - simpl in Hwg.
    destruct (results_closed s) eqn:Hrc.
    2:{ exists ACloseResults. cbn [exec]. rewrite Hwg, Hrc. by eexists. }
    destruct (results s) as [|r rest] eqn:Hrs.
    + exists AReport. cbn [exec]. rewrite Hrs, Hrc, Hret. by eexists.
    + exists ACollect. cbn [exec]. rewrite Hrs, Hret. by eexists.
  - assert (st ∈ filter running (workers s)) as Hst by (rewrite Hrun; left).
    apply list_elem_of_filter in Hst as [Hst [w Hw]%list_elem_of_lookup].
    destruct st as [|dep|result|]; [| | |done].
    + destruct (jobs s) as [|d l] eqn:Hj.
      * exists (AExit w). cbn [exec]. rewrite Hw, Hj, Hjc. by eexists.
      * exists (AReceive w). cbn [exec]. rewrite Hw, Hj. by eexists.
    + exists (AProbe w env_ok). cbn [exec]. rewrite Hw. by eexists.
    + exists (ADeliver w). cbn [exec]. rewrite Hw.
      destruct (results_closed s) eqn:Hrc.
      { specialize (Hres eq_refl). rewrite Hres in Hwg. done. }
      destruct (Nat.ltb_spec (length (results s)) (length deps));
        [by eexists|].
      destruct (insert_split _ _ _ WExited Hw) as (l1 & l2 & Hws & _).
      rewrite Hws, bind_app, bind_cons, !length_app, !length_fmap in Hdeps.
      simpl in Hdeps. lia.
Qed.

(** *** Matching outcomes back to positions *)

Hypothesis distinct : NoDup (identity <$> deps).

Lemma find_index_first (ds : list Dependency) r i k :
  NoDup (identity <$> ds) ->
  ds !! i = Some (dep_of r) ->
  find_index ds r k = Some (k + i)%nat.
Proof.
  revert i k. induction ds as [|d ds IH]; intros i k Hnd Hi; [done|].
  rewrite fmap_cons in Hnd. apply NoDup_cons in Hnd as [Hd Hnd].
  cbn [find_index]. destruct i as [|i]; simpl in Hi.
  - injection Hi as ->. simpl. rewrite !String.eqb_refl. simpl.
    f_equal. lia.
  - destruct (String.eqb_spec (dName d) (Name r)) as [E1|];
      destruct (String.eqb_spec (dVersion d) (rVersion r)) as [E2|]; simpl;
      try (rewrite (IH i (S k)); [f_equal; lia|done..]).
    exfalso. apply Hd. apply list_elem_of_fmap. exists (dep_of r).
    split; [unfold identity; simpl; congruence|].
    by eapply list_elem_of_lookup_2.
Qed.

Lemma record_result_placed m r :
  well_placed deps m ->
  dep_of r ∈ deps ->
  well_placed deps (record_result deps m r)
  /\ exists i, deps !! i = Some (dep_of r)
               /\ is_Some (record_result deps m r !! i).
Proof.
  intros Hm [i Hi]%list_elem_of_lookup. unfold record_result.
  rewrite (find_index_first _ _ _ 0 distinct Hi). simpl. split.
  - intros j r'. destruct (decide (i = j)) as [<-|Hne].
    + rewrite lookup_insert_eq. by intros [= <-].
    + rewrite lookup_insert_ne by done. apply Hm.
  - exists i. split; [done|]. rewrite lookup_insert_eq. by eexists.
Qed.

Lemma record_result_keeps m r i :
  is_Some (m !! i) -> is_Some (record_result deps m r !! i).
Proof.
  intros H. unfold record_result.
  destruct (find_index deps r 0) as [j|]; [|done].
  destruct (decide (j = i)) as [->|Hne].
  - rewrite lookup_insert_eq. by eexists.
  - by rewrite lookup_insert_ne.
Qed.

Lemma collect_placed received m :
  well_placed deps m ->
  (forall r, r ∈ received -> dep_of r ∈ deps) ->
  let m' := fold_left (record_result deps) received m in
  well_placed deps m'
  /\ (forall i, is_Some (m !! i) -> is_Some (m' !! i))
  /\ (forall r, r ∈ received ->
       exists i, deps !! i = Some (dep_of r) /\ is_Some (m' !! i)).
Proof.
  revert m. induction received as [|r rs IH]; intros m Hm Hin; simpl.
  - split; [done|]. split; [done|]. by intros r Hr%elem_of_nil.
  - destruct (record_result_placed m r Hm) as (Hm' & i & Hi & Hsome).
    { apply Hin. left. }
    destruct (IH _ Hm') as (H1 & H2 & H3).
    { intros r' Hr'. apply Hin. by right. }
    split; [done|]. split.
    + intros j Hj. by apply H2, record_result_keeps.
    + intros r' [->|Hr']%elem_of_cons; [|by apply H3].
      exists i. split; [done|]. by apply H2.
Qed.

Lemma report_results_placed (m : gmap nat AuditResult) k :
  (forall i d, deps !! i = Some d ->
               exists r, m !! i = Some r /\ Index r = i /\ dep_of r = d) ->
  (k <= length deps)%nat ->
  Index <$> report_results k m = seq 0 k
  /\ dep_of <$> report_results k m = take k deps.
Proof.
  intros Hfull. unfold report_results.
  induction k as [|k IH]; intros Hk; [done|].
  destruct IH as [IH1 IH2]; [lia|].
  destruct (lookup_lt_is_Some_2 deps k) as [d Hd]; [lia|].
  destruct (Hfull k d Hd) as (r & Hr & Hidx & Hdep).
  rewrite seq_S, omap_app, !fmap_app, IH1, IH2. simpl. rewrite Hr. simpl.
  rewrite Hidx, Hdep. split; [done|]. by erewrite take_S_r.
Qed.

Lemma collected_report received :
  deps ≡ₚ dep_of <$> received ->
  let l := report_results (length deps)
             (fold_left (record_result deps) received ∅) in
  Index <$> l = seq 0 (length deps) /\ dep_of <$> l = deps.
Proof.
  intros Hperm l.
  assert (NoDup deps) as Hnd by (by eapply NoDup_fmap_1).
  destruct (collect_placed received ∅) as (Hplaced & _ & Hdom).
  { intros i r. by rewrite lookup_empty. }
  { intros r Hr. rewrite Hperm. by apply list_elem_of_fmap_2. }
  destruct (report_results_placed
              (fold_left (record_result deps) received ∅) (length deps))
    as [H1 H2]; [|done|].
  - intros i d Hd.
    assert (d ∈ dep_of <$> received) as Hin.
    { rewrite <- Hperm. by eapply list_elem_of_lookup_2. }
    apply list_elem_of_fmap in Hin as (r & -> & Hr).
    destruct (Hdom r Hr) as (j & Hj & [r' Hr']).
    assert (j = i) as -> by (by eapply NoDup_lookup).
    exists r'. split; [done|]. destruct (Hplaced _ _ Hr') as [Hidx Hdep].
    split; [done|]. congruence.
  - subst l. split; [done|]. by rewrite H2, firstn_all.
Qed.

(** *** The state on return *)

Lemma returned_complete numWorkers s :
  1 <= numWorkers ->
  reachable deps base token numWorkers s ->
  returned s = true ->
  completed s = length deps
  /\ probed s ≡ₚ deps
  /\ Index <$> final_report s = seq 0 (length deps)
  /\ dep_of <$> final_report s = deps.
Proof.
  intros Hn Hreach Hret.
  destruct (reachable_invariants _ _ Hreach)
    as ((Hlen & Hwg & Hclosed & Hexit & Hres) & [received Hacc] & Hr).
  unfold reported in Hr. rewrite Hret in Hr. destruct Hr as (Hrc & Hrs & Hrep).
  rewrite (Hres Hrc) in Hwg. symmetry in Hwg.
  apply length_zero_iff_nil in Hwg.
  destruct (exited_workers _ Hwg) as (Hex & Hheld & Hund).
  destruct Hexit as [Hjc Hj].
  { apply Hex. intros Hnil. rewrite Hnil in Hlen. simpl in Hlen. lia. }
  destruct Hacc as (Hdeps & Hprobed & Hmap & Hdone).
  rewrite (Hclosed Hjc), Hj, Hheld, Hrs in Hdeps. simpl in Hdeps.
  rewrite Hund, Hrs in Hprobed. simpl in Hprobed.
  destruct (collected_report received Hdeps) as [H1 H2].
  rewrite Hrep, Hmap. split; [|split; [|done]].
  - by rewrite Hdone, Hdeps, length_fmap.
  - by rewrite Hprobed.
Qed.

(** Every run comes to the return of the function. *)
Lemma returns numWorkers s :
  reachable deps base token numWorkers s ->
  exists s', rtc (step deps base token) s s' /\ returned s' = true.
Proof.
  remember (steps_left s) as n eqn:Hn. revert s Hn.
  induction n as [n IH] using lt_wf_ind. intros s -> Hreach.
  destruct (returned s) eqn:Hret; [by exists s|].
  destruct (progress _ _ Hreach Hret) as (a & s1 & Hexec).
  destruct (IH (steps_left s1)) with (s := s1) as (s' & Hrun & Hdone);
    [by eapply steps_left_decreases|done| |].
  - eapply rtc_r; [exact Hreach|by exists a].
  - exists s'. split; [|done]. eapply rtc_l; [by exists a|done].
Qed.
End Coordinator.

Lemma run_reachable deps base token schedule s s' :
  run deps base token schedule s = Some s' -> rtc (step deps base token) s s'.
Proof.
  revert s. induction schedule as [|a schedule IH]; intros s; simpl.
  - by intros [= ->].
  - destruct (exec deps base token a s) as [s1|] eqn:E; [|done].
    intros H. eapply rtc_l; [by exists a|by apply IH].
Qed.

(** C4 (as amended). For every list of N work items whose (name, version)
    pairs are pairwise distinct, every worker count of at least 1 and every
    interleaving of the goroutines: each step brings the run closer to its
    end and the run cannot get stuck before the function returns; on
    return N outcomes have been collected, every item has been probed
    exactly once, and the report has exactly N entries, the entry at
    position i being the outcome of item i. *)
Theorem C4_report_complete :
  forall (deps : list Dependency) (base token : string) (numWorkers : Z),
    NoDup (identity <$> deps) ->
    1 <= numWorkers ->
    forall s,
      reachable deps base token numWorkers s ->
      (forall a s', exec deps base token a s = Some s' ->
                    (steps_left s' < steps_left s)%nat)
      /\ (returned s = false -> exists a s', exec deps base token a s = Some s')
      /\ (exists s', rtc (step deps base token) s s' /\ returned s' = true)
      /\ (returned s = true ->
          completed s = length deps
          /\ probed s ≡ₚ deps
          /\ length (final_report s) = length deps
          /\ Index <$> final_report s = seq 0 (length deps)
          /\ dep_of <$> final_report s = deps).
Proof.
  intros deps base token numWorkers Hnd Hn s Hreach.
  split; [|split; [|split]].
  - intros a s'. apply steps_left_decreases.
  - by eapply progress.
  - by eapply returns.
  - intros Hret.
    destruct (returned_complete deps base token Hnd numWorkers s Hn Hreach Hret)
      as (H1 & H2 & H3 & H4).
    repeat split; try done.
    by rewrite <- (length_fmap Index), H3, length_seq.
Qed.

Lemma reversed_run_reachable :
  reachable two_items "https://registry.npmjs.org" "" 2 reversed_run.
Proof. apply (run_reachable _ _ _ reversed_schedule). by vm_compute. Qed.

Lemma twice_run_reachable :
  reachable twice "https://registry.npmjs.org" "" 1 twice_run.
Proof. apply (run_reachable _ _ _ twice_schedule). by vm_compute. Qed.

Lemma idle_run_reachable :
  reachable one_item "https://registry.npmjs.org" "" 0 idle_run.
Proof. apply (run_reachable _ _ _ idle_schedule). by vm_compute. Qed.

(** C4 on two items whose outcomes arrive in reverse order. *)
Lemma C4_report_complete_witness :
  NoDup (identity <$> two_items)
  /\ 1 <= 2
  /\ returned reversed_run = true
  /\ dep_of <$> final_report reversed_run = two_items
  /\ Index <$> final_report reversed_run = [0; 1]%nat.
Proof.
  assert (NoDup (identity <$> two_items)) as Hnd.
  { apply (bool_decide_unpack _). by vm_compute. }
  split; [exact Hnd|]. split; [lia|]. split; [by vm_compute|].
  destruct (C4_report_complete two_items "https://registry.npmjs.org" "" 2
              Hnd ltac:(lia) reversed_run reversed_run_reachable)
    as (_ & _ & _ & H).
  destruct (H ltac:(by vm_compute)) as (_ & _ & _ & H1 & H2).
  split; [exact H2|exact H1].
Defined.

(** C4 as stated fails: when the same (name, version) is submitted twice,
    both outcomes are filed under the first position and the report has one
    entry for two items. *)
Lemma C4_counterexample :
  ~ (forall (deps : list Dependency) (base token : string) (s : cstate),
        reachable deps base token 1 s ->
        returned s = true ->
        length (final_report s) = length deps).
Proof.
  intros H.
  specialize (H twice _ _ twice_run twice_run_reachable).
  assert (returned twice_run = true) as Hret by (by vm_compute).
  specialize (H Hret). vm_compute in H. discriminate H.
Qed.

(** ** Worker count *)

Lemma report_results_empty total : report_results total ∅ = [].
Proof.
  unfold report_results. induction (seq 0 total) as [|i l IH]; [done|].
  simpl. by rewrite lookup_empty.
Qed.

(** Without workers nothing is probed and nothing is collected. *)
Lemma no_workers deps base token numWorkers s :
  numWorkers <= 0 ->
  reachable deps base token numWorkers s ->
  probed s = [] /\ final_report s = [].
Proof.
  intros Hn Hreach.
  assert (workers s = [] /\ results s = [] /\ resultMap s = ∅ /\ probed s = [])
    as (_ & _ & Hmap & Hprobed).
  { revert s Hreach. apply rtc_ind_r.
    - unfold init. simpl. by replace (Z.to_nat numWorkers) with 0%nat by lia.
    - intros s s' _ [a Ha] (Hw & Hr & Hm & Hp).
      exec_cases Ha; rewrite ?Hw in *; try done. }
  split; [done|].
  destruct (reachable_invariants _ _ _ _ _ Hreach) as (_ & _ & Hrep).
  unfold reported in Hrep. destruct (returned s); [|done].
  destruct Hrep as (_ & _ & ->). rewrite Hmap. apply report_results_empty.
Qed.

(** C2, at the worker-count argument [0]. The argument scans as the
    integer 0, so no warning is printed and the count stays 0, as it stays
    -3 for [-3] and 10 for [10abc]; only an argument that does not start
    with an integer, like [abc], gets the warning and the default 5. With
    0 workers the audit returns without probing anything and with an empty
    report, where 5 workers report on every item. *)
Theorem C2_zero_workers_kept :
  main_config ["combined_audit"; "pnpm-lock.yaml"; "https://registry.npmjs.org"; ""; "0"]
  = Some (mkConfig "pnpm-lock.yaml" "https://registry.npmjs.org" "" 0 [])
  /\ main_config ["combined_audit"; "pnpm-lock.yaml"; "https://registry.npmjs.org"; ""; "-3"]
     = Some (mkConfig "pnpm-lock.yaml" "https://registry.npmjs.org" "" (-3) [])
  /\ main_config ["combined_audit"; "pnpm-lock.yaml"; "https://registry.npmjs.org"; ""; "10abc"]
     = Some (mkConfig "pnpm-lock.yaml" "https://registry.npmjs.org" "" 10 [])
  /\ main_config ["combined_audit"; "pnpm-lock.yaml"; "https://registry.npmjs.org"; ""; "abc"]
     = Some (mkConfig "pnpm-lock.yaml" "https://registry.npmjs.org" "" 5
               [workers_warning "abc"])
  /\ (forall deps base token s,
         reachable deps base token 0 s ->
         probed s = [] /\ final_report s = [])
  /\ (reachable one_item "https://registry.npmjs.org" "" 0 idle_run
      /\ returned idle_run = true)
  /\ (forall base token s,
         reachable one_item base token 5 s ->
         returned s = true ->
         probed s ≡ₚ one_item /\ dep_of <$> final_report s = one_item).
Proof.
  do 4 (split; [reflexivity|]). split; [|split].
  - intros deps base token s. by apply no_workers.
  - split; [apply idle_run_reachable|reflexivity].
  - intros base token s Hreach Hret.
    assert (NoDup (identity <$> one_item)) as Hnd.
    { apply (bool_decide_unpack _). by vm_compute. }
    destruct (returned_complete one_item base token Hnd 5 s ltac:(lia)
                Hreach Hret) as (_ & H2 & _ & H4).
    by split.
Qed.

(** ** Indirect dependencies *)

Lemma parsePackages_declared entries tree name info :
  (forall name info, tree !! name = Some info -> Type_ info = "package") ->
  fold_left processEntry entries tree !! name = Some info ->
  Type_ info = "package".
Proof.
  revert tree. induction entries as [|[key e] entries IH]; intros tree Htree.
  - apply Htree.
  - cbn [fold_left]. apply IH. intros n i. unfold processEntry.
    destruct (parsePackageKey key) as [pn pv].
    destruct (negb (String.eqb pn "") && negb (String.eqb pv "")); [|apply Htree].
    destruct (decide (pn = n)) as [->|Hne].
    + rewrite lookup_insert_eq. by intros [= <-].
    + rewrite lookup_insert_ne by done. apply Htree.
Qed.

(** C1, at the lock key [bar@1.0.0(foo@2.3.0)]. The extractor, applied to
    the version string, yields the [indirect] record [foo] -> [2.3.0]; the
    parser never applies it: the tree holds the record of [bar] only, and
    no tree the parser returns holds a record whose type is not [package]. *)
Theorem C1_indirect_not_synthesised :
  extractIndirectDependencies "1.0.0(foo@2.3.0)" !! "foo"
  = Some (mkPackageInfo "2.3.0" "indirect" None None)
  /\ (exists tree,
         parsePnpmLock "pnpm-lock.yaml"
           (FileDecoded [("bar@1.0.0(foo@2.3.0)", ∅)]) = inr tree
         /\ tree !! "bar"
            = Some (mkPackageInfo "1.0.0(foo@2.3.0)" "package" None None)
         /\ tree !! "foo" = None)
  /\ (forall path file tree name info,
         parsePnpmLock path file = inr tree ->
         tree !! name = Some info ->
         Type_ info = "package").
Proof.
  split; [by vm_compute|]. split.
  - eexists. split; [reflexivity|]. split; by vm_compute.
  - intros path file tree name info Hp Hl.
    destruct file; try discriminate Hp. injection Hp as <-.
    eapply parsePackages_declared; [|exact Hl].
    intros n i. by rewrite lookup_empty.
Qed.

(** ** Lockfile parser: which records the tree holds *)

Lemma processEntry_recorded tree entry :
  processEntry tree entry
  = match recorded_name entry with
    | Some name =>
        <[name := declared (parsePackageKey entry.1).2 entry.2]> tree
    | None => tree
    end.
Proof.
  destruct entry as [key e]. unfold processEntry, recorded_name. simpl.
  destruct (parsePackageKey key) as [n v]. simpl.
  by destruct (negb (String.eqb n "") && negb (String.eqb v "")).
Qed.

Lemma recorded_name_Some key e name :
  recorded_name (key, e) = Some name
  <-> exists version,
        parsePackageKey key = (name, version)
        /\ name <> EmptyString /\ version <> EmptyString.
Proof.
  unfold recorded_name. simpl. destruct (parsePackageKey key) as [n v].
  destruct (String.eqb_spec n "") as [->|Hn]; simpl.
  { split; [done|]. by intros (v' & [= <- _] & Hn & _). }
  destruct (String.eqb_spec v "") as [->|Hv]; simpl.
  { split; [done|]. by intros (v' & [= _ <-] & _ & Hv). }
  split.
  - intros [= <-]. by exists v.
  - by intros (v' & [= <- _] & _).
Qed.

Lemma fold_processEntry_lookup entries tree name :
  is_Some (fold_left processEntry entries tree !! name)
  <-> is_Some (tree !! name)
      \/ exists entry, entry ∈ entries /\ recorded_name entry = Some name.
Proof.
  revert tree. induction entries as [|x entries IH]; intros tree.
  - simpl. split; [by left|]. intros [?|(e & []%elem_of_nil & _)]. done.
  - cbn [fold_left]. rewrite IH, processEntry_recorded.
    destruct (recorded_name x) as [n|] eqn:Hx.
    + destruct (decide (n = name)) as [->|Hne].
      * rewrite lookup_insert_eq. split; [|by intros; left; eexists].
        intros _. right. exists x. split; [left|done].
      * rewrite lookup_insert_ne by done. split.
        -- intros [?|(e & He & Hr)]; [by left|].
           right. exists e. split; [by right|done].
        -- intros [?|(e & [->|He]%elem_of_cons & Hr)]; [by left| |].
           ++ congruence.
           ++ right. by exists e.
    + split.
      * intros [?|(e & He & Hr)]; [by left|].
        right. exists e. split; [by right|done].
      * intros [?|(e & [->|He]%elem_of_cons & Hr)]; [by left| |].
        -- congruence.
        -- right. by exists e.
Qed.

(** X1. The names in the tree are exactly the names under which some key
    of the document is recorded: a name is present if and only if some key
    splits into that name and a version, both non-empty. *)
Theorem tree_names_are_the_split_names :
  forall (entries : list (string * LockEntry)) (name : string),
    is_Some (parsePackages entries !! name)
    <-> exists key info version,
          (key, info) ∈ entries
          /\ parsePackageKey key = (name, version)
          /\ name <> EmptyString /\ version <> EmptyString.
Proof.
  intros entries name. unfold parsePackages.
  rewrite fold_processEntry_lookup, lookup_empty. split.
  - intros [[? [=]]|([key e] & He & Hr)].
    apply recorded_name_Some in Hr as (v & Hk & Hn & Hv).
    by exists key, e, v.
  - intros (key & e & v & He & Hk & Hn & Hv). right. exists (key, e).
    split; [done|]. apply recorded_name_Some. by exists v.
Qed.

Lemma fold_processEntry_other entries tree name :
  Forall (fun entry => recorded_name entry <> Some name) entries ->
  fold_left processEntry entries tree !! name = tree !! name.
Proof.
  revert tree. induction entries as [|x entries IH]; intros tree Hall; [done|].
  apply Forall_cons in Hall as [Hx Hall]. cbn [fold_left].
  rewrite (IH _ Hall), processEntry_recorded.
  destruct (recorded_name x) as [n|]; [|done].
  apply lookup_insert_ne. congruence.
Qed.

(** X2. When several keys are recorded under one name, the record of the
    key visited last stands: if no entry after [(key, info)] is recorded
    under [name], the tree maps [name] to the record of [key]. *)
Theorem last_key_wins :
  forall (before after : list (string * LockEntry)) key info name version,
    parsePackageKey key = (name, version) ->
    name <> EmptyString -> version <> EmptyString ->
    Forall (fun entry => recorded_name entry <> Some name) after ->
    parsePackages (before ++ (key, info) :: after) !! name
    = Some (declared version info).
Proof.
  intros before after key info name version Hk Hn Hv Hafter.
  rewrite parsePackages_app. cbn [fold_left].
  rewrite (fold_processEntry_other _ _ _ Hafter).
  rewrite (processEntry_kept _ _ _ _ _ Hk Hn Hv). apply lookup_insert_eq.
Qed.

Lemma last_key_wins_witness :
  parsePackages [("abbrev@1.0.0", ∅); ("abbrev@1.1.1", ∅); ("left-pad@1.3.0", ∅)]
    !! "abbrev"
  = Some (declared "1.1.1" ∅).
Proof.
  apply (last_key_wins [("abbrev@1.0.0", ∅)] [("left-pad@1.3.0", ∅)]
           "abbrev@1.1.1" ∅ "abbrev" "1.1.1" eq_refl);
    [discriminate|discriminate|].
  repeat constructor. by vm_compute.
Defined.

Lemma processEntry_comm tree x y :
  (forall n, recorded_name x = Some n -> recorded_name y <> Some n) ->
  processEntry (processEntry tree x) y = processEntry (processEntry tree y) x.
Proof.
  intros Hxy. rewrite !processEntry_recorded.
  destruct (recorded_name x) as [n|]; [|done].
  destruct (recorded_name y) as [m|]; [|done].
  apply insert_insert_ne. intros ->. by apply (Hxy _ eq_refl).
Qed.

Lemma fold_processEntry_perm l l' tree :
  l ≡ₚ l' ->
  NoDup (omap recorded_name l) ->
  fold_left processEntry l tree = fold_left processEntry l' tree.
Proof.
  intros Hp. revert tree.
  induction Hp as [|x l l' Hp IH|x y l|l l1 l2 Hp1 IH1 Hp2 IH2];
    intros tree Hnd.
  - done.
  - cbn [fold_left]. apply IH. simpl in Hnd.
    destruct (recorded_name x); [by apply NoDup_cons in Hnd as [_ ?]|done].
  - cbn [fold_left]. f_equal. apply processEntry_comm.
    intros n Hy Hx. simpl in Hnd. rewrite Hx, Hy in Hnd.
    apply NoDup_cons in Hnd as [Hin _]. apply Hin. left.
  - rewrite IH1 by done. apply IH2. by rewrite <- Hp1.
Qed.

(** X3. When no two keys of the document are recorded under the same
    name, the tree does not depend on the order in which the entries are
    visited. *)
Theorem parse_order_irrelevant :
  forall (entries entries' : list (string * LockEntry)),
    entries ≡ₚ entries' ->
    NoDup (omap recorded_name entries) ->
    parsePackages entries = parsePackages entries'.
Proof. intros entries entries' Hp Hnd. by apply fold_processEntry_perm. Qed.

Lemma parse_order_irrelevant_witness :
  parsePackages [("abbrev@1.1.1", ∅); ("@scope/pkg@1.0.0", ∅)]
  = parsePackages [("@scope/pkg@1.0.0", ∅); ("abbrev@1.1.1", ∅)].
Proof.
  apply parse_order_irrelevant.
  - apply perm_swap.
  - apply (bool_decide_unpack _). by vm_compute.
Defined.

(** X4. When two keys are recorded under the same name with different
    records, the tree depends on which of them is visited last. *)
Theorem parse_order_matters_on_collision :
  forall key1 key2 info1 info2 name version1 version2,
    parsePackageKey key1 = (name, version1) ->
    parsePackageKey key2 = (name, version2) ->
    name <> EmptyString ->
    version1 <> EmptyString -> version2 <> EmptyString ->
    declared version1 info1 <> declared version2 info2 ->
    parsePackages [(key1, info1); (key2, info2)]
    <> parsePackages [(key2, info2); (key1, info1)].
Proof.
  intros key1 key2 info1 info2 name v1 v2 H1 H2 Hn Hv1 Hv2 Hne Heq.
  assert (parsePackages [(key1, info1); (key2, info2)] !! name
          = Some (declared v2 info2)) as Ha.
  { by apply (last_key_wins [(key1, info1)] [] key2 info2 name v2). }
  assert (parsePackages [(key2, info2); (key1, info1)] !! name
          = Some (declared v1 info1)) as Hb.
  { by apply (last_key_wins [(key2, info2)] [] key1 info1 name v1). }
  rewrite Heq, Hb in Ha. apply Hne. congruence.
Qed.

Lemma parse_order_matters_on_collision_witness :
  parsePackages [("abbrev@1.0.0", ∅); ("abbrev@1.1.1", ∅)]
  <> parsePackages [("abbrev@1.1.1", ∅); ("abbrev@1.0.0", ∅)].
Proof.
  apply (parse_order_matters_on_collision "abbrev@1.0.0" "abbrev@1.1.1" ∅ ∅
           "abbrev" "1.0.0" "1.1.1" eq_refl eq_refl);
    discriminate.
Defined.

(** ** Lockfile parser: putting a key back together *)

Lemma LastIndex_split (c : ascii) (s : string) (i : nat) :
  LastIndex s c = Z.of_nat i ->
  s = slice_to s i +:+ String c (slice_from s (S i))
  /\ Contains (slice_from s (S i)) c = false.
Proof.
  revert i. induction s as [|a s IH]; intros i; simpl; [lia|].
  destruct (0 <=? LastIndex s c) eqn:E.
  - intros Hi. destruct i as [|i]; [lia|].
    destruct (IH i) as [Hs Hc]; [lia|]. simpl. split; [|done].
    rewrite Hs at 1. reflexivity.
  - destruct (Ascii.eqb a c) eqn:Ea; [|lia].
    intros Hi. destruct i as [|i]; [|lia].
    apply Ascii.eqb_eq in Ea as ->. simpl.
    assert (Contains s c = false) as Hc.
    { destruct (Contains s c) eqn:Hc; [|done].
      destruct (last_cut _ _ Hc) as (n & v & -> & Hv).
      rewrite (LastIndex_cut _ _ _ Hv) in E.
      apply Z.leb_gt in E. lia. }
    split; [by destruct s|]. by destruct s.
Qed.

Lemma SplitN2_split (c : ascii) (s name version : string) :
  SplitN2 s c = [name; version] ->
  s = name +:+ String c version /\ Contains name c = false.
Proof.
  revert name. induction s as [|a s IH]; intros name; simpl; [done|].
  destruct (Ascii.eqb a c) eqn:Ea.
  - intros [= <- <-]. apply Ascii.eqb_eq in Ea as ->. done.
  - destruct (SplitN2 s c) as [|p [|q [|r rest]]] eqn:Hs; try done.
    intros [= <- <-]. destruct (IH p eq_refl) as [-> Hp].
    simpl. by rewrite Ea.
Qed.

(** X5. Whenever [parsePackageKey] returns a non-empty name, the key is
    the name, an [@] and the version, cut where the key's kind demands: the
    version of a key that begins with [@] contains no [@] and its name
    begins with [@]; the name of any other key contains no [@]. *)
Theorem parsePackageKey_reassembles :
  forall key name version,
    parsePackageKey key = (name, version) ->
    name <> EmptyString ->
    key = name +:+ "@" +:+ version
    /\ (if HasPrefix key "@"
        then Contains version at_sign = false /\ HasPrefix name "@" = true
        else Contains name at_sign = false).
Proof.
  intros key name version. unfold parsePackageKey.
  destruct (HasPrefix key "@") eqn:Hpre.
  - destruct (0 <? LastIndex key at_sign) eqn:Hpos; [|by intros [= <- _]].
    intros [= <- <-] _.
    pose proof (LastIndex_bound at_sign key) as Hb.
    destruct (LastIndex_split at_sign key (Z.to_nat (LastIndex key at_sign)))
      as [Hs Hc]; [lia|].
    replace (Z.to_nat (LastIndex key at_sign + 1))
      with (S (Z.to_nat (LastIndex key at_sign))) by lia.
    split; [exact Hs|]. split; [exact Hc|].
    rewrite HasPrefix_at in Hpre |- *.
    destruct key as [|a key]; [done|].
    destruct (Z.to_nat (LastIndex (String a key) at_sign)) eqn:Hk; [lia|].
    done.
  - destruct (SplitN2 key at_sign) as [|p [|q [|r rest]]] eqn:Hs;
      try by intros [= <- _].
    intros [= <- <-] _. by apply SplitN2_split.
Qed.

Lemma parsePackageKey_reassembles_witness :
  "@scope/pkg@1.0.0" = "@scope/pkg" +:+ "@" +:+ "1.0.0"
  /\ (if HasPrefix "@scope/pkg@1.0.0" "@"
      then Contains "1.0.0" at_sign = false
           /\ HasPrefix "@scope/pkg" "@" = true
      else Contains "@scope/pkg" at_sign = false).
Proof.
  apply (parsePackageKey_reassembles "@scope/pkg@1.0.0" "@scope/pkg" "1.0.0");
    [reflexivity|discriminate].
Defined.

(** ** The indirect-dependency extractor *)

Lemma append_length (s t : string) :
  String.length (s +:+ t) = (String.length s + String.length t)%nat.
Proof. induction s as [|a s IH]; simpl; [done|]. by rewrite IH. Qed.

Lemma span_not_split (c : ascii) (s : string) :
  s = (span_not c s).1 +:+ (span_not c s).2
  /\ Contains (span_not c s).1 c = false
  /\ match (span_not c s).2 with
     | EmptyString => True
     | String a _ => a = c
     end.
Proof.
  induction s as [|a s (IH1 & IH2 & IH3)]; simpl; [done|].
  destruct (Ascii.eqb a c) eqn:E; simpl.
  - apply Ascii.eqb_eq in E. done.
  - destruct (span_not c s) as [run rest]. simpl in *. rewrite E.
    split; [by rewrite IH1 at 1|done].
Qed.

Lemma span_not_cut (c : ascii) (g t : string) :
  Contains g c = false -> span_not c (g +:+ String c t) = (g, String c t).
Proof.
  induction g as [|a g IH]; simpl.
  - by rewrite Ascii.eqb_refl.
  - destruct (Ascii.eqb a c); [done|]. intros H. by rewrite (IH H).
Qed.

Lemma match_here_Some (s g1 g2 rest : string) :
  match_here s = Some (g1, g2, rest) ->
  s = "(" +:+ g1 +:+ "@" +:+ g2 +:+ ")" +:+ rest
  /\ g1 <> EmptyString /\ Contains g1 "@" = false
  /\ g2 <> EmptyString /\ Contains g2 ")" = false.
Proof.
  unfold match_here. destruct s as [|a s1]; [done|].
  destruct (Ascii.eqb_spec a "(") as [->|Hne].
  2:{ destruct a as [[] [] [] [] [] [] [] []]; try done. }
  destruct (span_not_split "@" s1) as (H1 & H2 & H3).
  destruct (span_not "@" s1) as [[|x r1] [|y s2]]; try done.
  simpl in H1, H2, H3. subst y.
  destruct (span_not_split ")" s2) as (H4 & H5 & H6).
  destruct (span_not ")" s2) as [[|z r2] [|w s3]]; try done.
  simpl in H4, H5, H6. subst w. intros [= <- <- <-].
  rewrite H1, H4. by repeat split.
Qed.

Lemma match_here_built (g1 g2 post : string) :
  g1 <> EmptyString -> Contains g1 "@" = false ->
  g2 <> EmptyString -> Contains g2 ")" = false ->
  match_here ("(" +:+ g1 +:+ "@" +:+ g2 +:+ ")" +:+ post)
  = Some (g1, g2, post).
Proof.
  intros Hg1 Hc1 Hg2 Hc2.
  change (match_here (String "(" (g1 +:+ String "@" (g2 +:+ String ")" post)))
          = Some (g1, g2, post)).
  unfold match_here.
  rewrite (span_not_cut "@" g1 _ Hc1).
  destruct g1 as [|a g1]; [done|].
  rewrite (span_not_cut ")" g2 _ Hc2).
  by destruct g2.
Qed.

Lemma match_here_shorter (s g1 g2 rest : string) :
  match_here s = Some (g1, g2, rest) ->
  (String.length rest < String.length s)%nat.
Proof.
  intros (-> & _)%match_here_Some.
  rewrite !append_length. simpl. lia.
Qed.

(** The number of start positions [find_all] may try is never what
    ends the search: with any bound above the length of the string it
    returns the matches [FindAllStringSubmatch] returns. *)
Theorem find_all_enough_fuel :
  forall (fuel : nat) (s : string),
    (String.length s < fuel)%nat ->
    find_all fuel s = FindAllStringSubmatch s.
Proof.
  assert (forall n m s,
             (String.length s < n)%nat -> (String.length s < m)%nat ->
             find_all n s = find_all m s) as H.
  { induction n as [|n IH]; intros m s Hn Hm; [lia|].
    destruct m as [|m]; [lia|]. cbn [find_all].
    destruct (match_here s) as [[[g1 g2] rest]|] eqn:E.
    - apply match_here_shorter in E. f_equal. apply IH; lia.
    - destruct s as [|a s]; [done|]. simpl in Hn, Hm. apply IH; lia. }
  intros fuel s Hf. apply H; [done|lia].
Qed.

Lemma find_all_enough_fuel_witness :
  find_all 100 "1.0.0(foo@2.3.0)" = FindAllStringSubmatch "1.0.0(foo@2.3.0)".
Proof. apply find_all_enough_fuel. simpl. lia. Defined.

Lemma match_here_not_paren (a : ascii) (s : string) :
  a <> "("%char -> match_here (String a s) = None.
Proof.
  intros Hne. unfold match_here.
  destruct a as [[] [] [] [] [] [] [] []]; try done.
Qed.

Lemma find_all_step (fuel : nat) (s : string) :
  find_all (S fuel) s
  = match match_here s with
    | Some (g1, g2, rest) => (g1, g2) :: find_all fuel rest
    | None =>
        match s with
        | EmptyString => []
        | String _ s' => find_all fuel s'
        end
    end.
Proof. reflexivity. Qed.

Lemma find_all_skip (pre t : string) :
  Contains pre "(" = false ->
  FindAllStringSubmatch (pre +:+ t) = FindAllStringSubmatch t.
Proof.
  induction pre as [|a pre IH]; [done|]. cbn [Contains].
  destruct (Ascii.eqb_spec a "(") as [|Hne]; [done|]. intros Hc.
  rewrite <- (IH Hc).
  change (String a pre +:+ t) with (String a (pre +:+ t)).
  unfold FindAllStringSubmatch at 1.
  rewrite find_all_step, (match_here_not_paren _ _ Hne).
  apply find_all_enough_fuel. simpl. lia.
Qed.

(** X6. The first match is the first parenthesised [(name@version)]: when
    no parenthesis opens before it, the search returns that pair and then
    the matches of what follows its closing parenthesis. In particular a
    string without an opening parenthesis has no match. *)
Theorem find_all_first_match :
  forall (pre g1 g2 post : string),
    Contains pre "(" = false ->
    g1 <> EmptyString -> Contains g1 "@" = false ->
    g2 <> EmptyString -> Contains g2 ")" = false ->
    FindAllStringSubmatch (pre +:+ "(" +:+ g1 +:+ "@" +:+ g2 +:+ ")" +:+ post)
    = (g1, g2) :: FindAllStringSubmatch post
    /\ FindAllStringSubmatch pre = [].
Proof.
  intros pre g1 g2 post Hpre Hg1 Hc1 Hg2 Hc2. split.
  - rewrite (find_all_skip _ _ Hpre). unfold FindAllStringSubmatch at 1.
    rewrite find_all_step, (match_here_built _ _ post Hg1 Hc1 Hg2 Hc2).
    f_equal. apply find_all_enough_fuel.
    rewrite !append_length. simpl. lia.
  - pose proof (find_all_skip pre EmptyString Hpre) as H.
    assert (pre +:+ EmptyString = pre) as Hnil.
    { clear. induction pre as [|a pre IH]; [done|].
      change (String a (pre +:+ EmptyString) = String a pre). by rewrite IH. }
    by rewrite Hnil in H.
Qed.

Lemma find_all_first_match_witness :
  FindAllStringSubmatch ("1.0.0" +:+ "(" +:+ "foo" +:+ "@" +:+ "2.3.0" +:+ ")" +:+ "")
  = ("foo", "2.3.0") :: FindAllStringSubmatch ""
  /\ FindAllStringSubmatch "1.0.0" = [].
Proof.
  apply find_all_first_match; (reflexivity || discriminate).
Defined.

Lemma append_assoc (s t u : string) : (s +:+ t) +:+ u = s +:+ (t +:+ u).
Proof.
  induction s as [|a s IH]; [done|].
  change (String a ((s +:+ t) +:+ u) = String a (s +:+ (t +:+ u))).
  by rewrite IH.
Qed.

Lemma find_all_sound (fuel : nat) (s g1 g2 : string) :
  (g1, g2) ∈ find_all fuel s ->
  (exists pre post, s = pre +:+ "(" +:+ g1 +:+ "@" +:+ g2 +:+ ")" +:+ post)
  /\ g1 <> EmptyString /\ Contains g1 "@" = false
  /\ g2 <> EmptyString /\ Contains g2 ")" = false.
Proof.
  revert s. induction fuel as [|fuel IH]; intros s; [by intros ?%elem_of_nil|].
  rewrite find_all_step.
  destruct (match_here s) as [[[h1 h2] rest]|] eqn:E.
  - apply match_here_Some in E as (Hs & Hh).
    intros [[= -> ->]|Hin]%elem_of_cons.
    + split; [|done]. by exists EmptyString, rest.
    + destruct (IH _ Hin) as ((pre & post & Hrest) & Hg). split; [|done].
      exists ("(" +:+ h1 +:+ "@" +:+ h2 +:+ ")" +:+ pre), post.
      rewrite Hs, Hrest. by rewrite !append_assoc.
  - destruct s as [|a s]; [by intros ?%elem_of_nil|].
    intros Hin. destruct (IH _ Hin) as ((pre & post & Hs) & Hg).
    split; [|done]. exists (String a pre), post. by rewrite Hs.
Qed.

Lemma fold_insert_lookup (l : list (string * string))
    (m : DependencyTree) (name : string) (info : PackageInfo) :
  fold_left
    (fun indirectDeps p =>
       <[p.1 := mkPackageInfo p.2 "indirect" None None]> indirectDeps) l m
    !! name = Some info ->
  m !! name = Some info
  \/ exists version,
       (name, version) ∈ l
       /\ info = mkPackageInfo version "indirect" None None.
Proof.
  revert m. induction l as [|[g1 g2] l IH]; intros m; [by left|].
  cbn [fold_left]. intros [H|(v & Hin & ->)]%IH.
  - simpl in H. destruct (decide (g1 = name)) as [->|Hne].
    + rewrite lookup_insert_eq in H. injection H as <-.
      right. exists g2. split; [left|done].
    + rewrite lookup_insert_ne in H by done. by left.
  - right. exists v. split; [by right|done].
Qed.

(** X7. Every record the extractor returns comes from a parenthesised
    [(name@version)] inside the version string: its type is [indirect], it
    has no resolution or engines, its name is non-empty and free of [@],
    and its version is non-empty and free of [)]. *)
Theorem extracted_records :
  forall (versionString name : string) (info : PackageInfo),
    extractIndirectDependencies versionString !! name = Some info ->
    info = mkPackageInfo (Version info) "indirect" None None
    /\ (exists pre post,
           versionString
           = pre +:+ "(" +:+ name +:+ "@" +:+ Version info +:+ ")" +:+ post)
    /\ name <> EmptyString /\ Contains name "@" = false
    /\ Version info <> EmptyString /\ Contains (Version info) ")" = false.
Proof.
  intros s name info H. unfold extractIndirectDependencies in H.
  apply fold_insert_lookup in H as [H|(v & Hin & ->)].
  - by rewrite lookup_empty in H.
  - split; [done|]. by apply (find_all_sound _ _ _ _ Hin).
Qed.

Lemma extracted_records_witness :
  exists pre post,
    "1.0.0(foo@2.3.0)"
    = pre +:+ "(" +:+ "foo" +:+ "@" +:+ "2.3.0" +:+ ")" +:+ post.
Proof.
  apply (extracted_records "1.0.0(foo@2.3.0)" "foo"
           (mkPackageInfo "2.3.0" "indirect" None None)).
  by vm_compute.
Defined.

(** ** Registry prober: one attempt, and what the outcome tells *)

(** X8. A probe sends at most one GET. It sends it exactly when the name
    is well formed and [http.NewRequest] accepts the URL; the GET carries
    [Bearer <token>] when a token is given and no authorization header
    otherwise. The outcome has no error exactly when a response came back;
    without a GET the status code stays 0. The prober never sets the
    index. *)
Theorem probe_single_attempt :
  forall (name version type base token : string) (env : Env),
    let p := checkNpmRegistry name version type base token in
    let r := run_probe env p in
    (length (network_calls env p) <= 1)%nat
    /\ (forall url auth,
           network_calls env p = [(url, auth)]
           <-> packageURL base name version = Some url
               /\ new_request env "GET" url = None
               /\ auth = (if String.eqb token "" then None
                          else Some ("Bearer " +:+ token)))
    /\ (Error r = None
        <-> exists url auth code,
              network_calls env p = [(url, auth)]
              /\ client_do env url auth = inr code
              /\ StatusCode r = code)
    /\ (network_calls env p = [] -> StatusCode r = 0 /\ is_Some (Error r))
    /\ Index r = 0%nat.
Proof.
  intros name version type base token env p r. subst p r.
  rewrite checkNpmRegistry_unfold. fold (authorization token).
  destruct (packageURL base name version) as [u|] eqn:Hu; simpl.
  2:{ split; [lia|]. split; [|split; [|by split; [|eexists]]].
      - intros url auth. split; [done|]. by intros [[=] _].
      - split; [done|]. by intros (? & ? & ? & [=] & _). }
  destruct (new_request env "GET" u) as [e|] eqn:Hreq; simpl.
  { split; [lia|]. split; [|split; [|by split; [|eexists]]].
    - intros url auth. split; [done|]. intros ([= <-] & Hn & _). congruence.
    - split; [done|]. by intros (? & ? & ? & [=] & _). }
  assert (forall url auth,
             [(u, authorization token)] = [(url, auth)]
             <-> Some u = Some url /\ new_request env "GET" url = None
                 /\ auth = authorization token) as Hcall.
  { intros url auth. split; [by intros [= <- <-]|].
    by intros ([= <-] & _ & ->). }
  destruct (client_do env u (authorization token)) as [e|code] eqn:Hdo; simpl.
  - split; [lia|]. split; [apply Hcall|]. split; [|by split].
    split; [done|]. intros (? & ? & ? & [= <- <-] & Hc & _). congruence.
  - split; [lia|]. split; [apply Hcall|]. split; [|by split].
    split; [|done]. intros _. by exists u, (authorization token), code.
Qed.

Lemma status_strings_distinct code :
  statusOf code <> statusInvalidScoped
  /\ statusOf code <> statusRequestFailed
  /\ statusRequestFailed <> statusInvalidScoped.
Proof.
  unfold statusOf, statusUnexpected, statusAvailable, statusBlocked,
    statusNotFound, statusInvalidScoped, statusRequestFailed.
  destruct (code =? 200); [by repeat split|].
  destruct (code =? 403); [by repeat split|].
  destruct (code =? 404); [by repeat split|].
  cbn [String.append]. by repeat split.
Qed.

(** X9. The status of an outcome tells which way the probe went,
    whatever the registry does: it is the invalid-scoped-format status
    exactly for a name that begins with [@] and has no [/], and the
    request-failed status exactly when the name is well formed and no
    response came back. *)
Theorem status_tells_the_path :
  forall (name version type base token : string) (env : Env),
    let r := run_probe env (checkNpmRegistry name version type base token) in
    let malformed := HasPrefix name "@" && negb (Contains name slash) in
    (Status r = statusInvalidScoped <-> malformed = true)
    /\ (Status r = statusRequestFailed
        <-> malformed = false /\ is_Some (Error r)).
Proof.
  intros name version type base token env r malformed. subst r malformed.
  destruct (status_strings_distinct 0) as (_ & _ & Hri).
  rewrite checkNpmRegistry_unfold.
  destruct (HasPrefix name "@" && negb (Contains name slash)) eqn:Hm.
  - apply andb_true_iff in Hm as [Hpre Hc]. apply negb_true_iff in Hc.
    rewrite (packageURL_malformed _ _ _ Hpre Hc). simpl.
    split; [done|]. split; [|by intros [[=] _]].
    intros H. by destruct Hri.
  - assert (exists u, packageURL base name version = Some u) as [u ->].
    { unfold packageURL. destruct (HasPrefix name "@"); [|by eexists].
      simpl in Hm. apply negb_false_iff in Hm.
      apply Split_present, Nat.leb_le in Hm as ->. by eexists. }
    simpl. destruct (new_request env "GET" u); simpl.
    { split; [by split|]. split; [by intros _; split|done]. }
    destruct (client_do env u (authorization token)) as [e|code]; simpl.
    { split; [by split|]. split; [by intros _; split|done]. }
    destruct (status_strings_distinct code) as (H1 & H2 & _).
    split; [by split|]. split; [done|]. by intros [_ [? [=]]].
Qed.

(** ** Concurrent audit coordinator: channels, output, duplicates *)

Lemma reachable_transcript deps base token numWorkers s :
  reachable deps base token numWorkers s -> transcript deps s.
Proof.
  unfold reachable. revert s. apply rtc_ind_r; [done|].
  intros s s' _ [a Ha] Ht. unfold transcript in *.
  exec_cases Ha; try done;
    repeat match goal with
      | Hx : returned s = _ |- _ => rewrite Hx in Ht
      end; rewrite Ht; try done.
  unfold progress_lines. rewrite Nat.add_1_r, seq_S, fmap_app. done.
Qed.

Lemma returned_drained deps base token numWorkers s :
  1 <= numWorkers ->
  reachable deps base token numWorkers s ->
  returned s = true ->
  exists received,
    deps ≡ₚ dep_of <$> received
    /\ probed s ≡ₚ deps
    /\ completed s = length deps
    /\ resultMap s = fold_left (record_result deps) received ∅.
Proof.
  intros Hn Hreach Hret.
  destruct (reachable_invariants _ _ _ _ _ Hreach)
    as ((Hlen & Hwg & Hclosed & Hexit & Hres) & [received Hacc] & Hr).
  unfold reported in Hr. rewrite Hret in Hr. destruct Hr as (Hrc & Hrs & Hrep).
  rewrite (Hres Hrc) in Hwg. symmetry in Hwg.
  apply length_zero_iff_nil in Hwg.
  destruct (exited_workers _ Hwg) as (Hex & Hheld & Hund).
  destruct Hexit as [Hjc Hj].
  { apply Hex. intros Hnil. rewrite Hnil in Hlen. simpl in Hlen. lia. }
  destruct Hacc as (Hdeps & Hprobed & Hmap & Hdone).
  rewrite (Hclosed Hjc), Hj, Hheld, Hrs in Hdeps. simpl in Hdeps.
  rewrite Hund, Hrs in Hprobed. simpl in Hprobed.
  exists received. split; [done|]. split; [by rewrite Hprobed|].
  split; [by rewrite Hdone, Hdeps, length_fmap|done].
Qed.

(** X10. The coordinator prints one progress line per outcome it
    collects, counting 1, 2, 3, ... out of N, and nothing else before it
    returns; with at least one worker, what it has printed on return is
    the lines 1/N to N/N, a blank line, and the report lines for the
    positions that have an outcome, whatever the work list. *)
Theorem progress_then_report :
  forall (deps : list Dependency) (base token : string) (numWorkers : Z) s,
    reachable deps base token numWorkers s ->
    (returned s = false ->
     stdout s = (fun i => Progress i (length deps)) <$> seq 1 (completed s))
    /\ (1 <= numWorkers -> returned s = true ->
        stdout s
        = (((fun i => Progress i (length deps)) <$> seq 1 (length deps))
           ++ NewLine :: report_lines (length deps) (resultMap s))%list).
Proof.
  intros deps base token numWorkers s Hreach.
  pose proof (reachable_transcript _ _ _ _ _ Hreach) as Ht.
  unfold transcript, progress_lines in Ht. split.
  - intros Hret. by rewrite Hret in Ht.
  - intros Hn Hret.
    destruct (returned_drained _ _ _ _ _ Hn Hreach Hret)
      as (received & _ & _ & Hdone & _).
    by rewrite Hret, Hdone in Ht.
Qed.

Lemma progress_then_report_witness :
  stdout reversed_run
  = [Progress 1 2; Progress 2 2; NewLine;
     ReportLine 1 2
       (mkAuditResult 0 "abbrev" "1.1.1" "package" statusAvailable 200 None);
     ReportLine 2 2
       (mkAuditResult 1 "left-pad" "1.3.0" "package" statusAvailable 200 None)].
Proof.
  rewrite (proj2 (progress_then_report two_items _ _ 2 reversed_run
                    reversed_run_reachable) ltac:(lia) ltac:(by vm_compute)).
  by vm_compute.
Defined.

(** X11. No send blocks and no send hits a closed channel: in every
    reachable state the sender can put its next item on [jobs], every
    worker holding an outcome can put it on [results], and [results] is
    closed only when every worker has exited. *)
Theorem sends_never_block :
  forall (deps : list Dependency) (base token : string) (numWorkers : Z) s,
    reachable deps base token numWorkers s ->
    (pending s <> [] -> is_Some (exec deps base token ASend s))
    /\ (forall w result,
           workers s !! w = Some (WSending result) ->
           is_Some (exec deps base token (ADeliver w) s))
    /\ (results_closed s = true ->
        forall st, st ∈ workers s -> st = WExited)
    /\ (length (jobs s) <= length deps)%nat
    /\ (length (results s) <= length deps)%nat.
Proof.
  intros deps base token numWorkers s Hreach.
  destruct (reachable_invariants _ _ _ _ _ Hreach)
    as ((Hlen & Hwg & Hclosed & Hexit & Hres) & [received Hacc] & Hr).
  destruct Hacc as (Hdeps & _). apply Permutation_length in Hdeps.
  rewrite !length_app, !length_fmap in Hdeps.
  assert (results_closed s = true -> forall st, st ∈ workers s -> st = WExited)
    as Hall.
  { intros Hrc st Hst. rewrite (Hres Hrc) in Hwg. symmetry in Hwg.
    apply length_zero_iff_nil in Hwg.
    destruct (decide (running st)) as [Hrun|Hrun].
    - assert (st ∈ filter running (workers s)) as Hin
        by (by apply list_elem_of_filter).
      rewrite Hwg in Hin. by apply elem_of_nil in Hin.
    - destruct st; try done; exfalso; by apply Hrun. }
  split; [|split; [|split; [done|lia]]].
  - intros Hp. cbn [exec]. destruct (pending s) as [|d l]; [done|].
    simpl in Hdeps.
    destruct (Nat.ltb_spec (length (jobs s)) (length deps)); [by eexists|lia].
  - intros w result Hw. cbn [exec]. rewrite Hw.
    destruct (results_closed s) eqn:Hrc.
    { by specialize (Hall eq_refl _ (list_elem_of_lookup_2 _ _ _ Hw)). }
    destruct (insert_split _ _ _ WExited Hw) as (l1 & l2 & Hws & _).
    rewrite Hws, bind_app, bind_cons, !length_app in Hdeps. simpl in Hdeps.
    destruct (Nat.ltb_spec (length (results s)) (length deps));
      [by eexists|lia].
Qed.

Lemma sends_never_block_witness :
  (length (jobs reversed_run) <= length two_items)%nat
  /\ (length (results reversed_run) <= length two_items)%nat.
Proof.
  destruct (sends_never_block two_items "https://registry.npmjs.org" "" 2
              reversed_run reversed_run_reachable) as (_ & _ & _ & H1 & H2).
  by split.
Defined.

(** X12. [find_index] is a first-match search: it returns a position
    exactly when that position holds an item with the outcome's name and
    version and no earlier position does; it returns nothing exactly when
    no item has that name and version. *)
Theorem find_index_first_match :
  forall (deps : list Dependency) (r : AuditResult),
    (forall i,
        find_index deps r 0 = Some i
        <-> (exists d, deps !! i = Some d
                       /\ identity d = (Name r, rVersion r))
            /\ forall j d, (j < i)%nat -> deps !! j = Some d ->
                           identity d <> (Name r, rVersion r))
    /\ (find_index deps r 0 = None
        <-> forall d, d ∈ deps -> identity d <> (Name r, rVersion r)).
Proof.
  intros deps r.
  assert (forall ds k,
             match find_index ds r k with
             | Some j =>
                 exists i d, j = (k + i)%nat /\ ds !! i = Some d
                   /\ identity d = (Name r, rVersion r)
                   /\ forall j' d', (j' < i)%nat -> ds !! j' = Some d' ->
                                    identity d' <> (Name r, rVersion r)
             | None => forall d, d ∈ ds -> identity d <> (Name r, rVersion r)
             end) as Hspec.
  { induction ds as [|d ds IH]; intros k; cbn [find_index].
    - by intros d ?%elem_of_nil.
    - destruct (String.eqb_spec (dName d) (Name r)) as [E1|E1];
        [destruct (String.eqb_spec (dVersion d) (rVersion r)) as [E2|E2]|];
        simpl.
      + exists 0%nat, d. split; [lia|]. split; [done|].
        split; [unfold identity; congruence|]. intros; lia.
      + specialize (IH (S k)). destruct (find_index ds r (S k)) as [j|].
        * destruct IH as (i & d' & -> & Hi & Hid & Hfirst).
          exists (S i), d'. split; [lia|]. split; [done|]. split; [done|].
          intros [|j'] d'' Hlt Hj'; simpl in Hj'.
          -- injection Hj' as <-. unfold identity. congruence.
          -- apply (Hfirst j'); [lia|done].
        * intros d' [->|Hin]%elem_of_cons; [|by apply IH].
          unfold identity. congruence.
      + specialize (IH (S k)). destruct (find_index ds r (S k)) as [j|].
        * destruct IH as (i & d' & -> & Hi & Hid & Hfirst).
          exists (S i), d'. split; [lia|]. split; [done|]. split; [done|].
          intros [|j'] d'' Hlt Hj'; simpl in Hj'.
          -- injection Hj' as <-. unfold identity. congruence.
          -- apply (Hfirst j'); [lia|done].
        * intros d' [->|Hin]%elem_of_cons; [|by apply IH].
          unfold identity. congruence. }
  specialize (Hspec deps 0%nat). split.
  - intros i. split.
    + intros Hf. rewrite Hf in Hspec.
      destruct Hspec as (i' & d & Heq & Hi & Hid & Hfirst).
      simpl in Heq. subst i'. split; [by exists d|done].
    + intros [(d & Hi & Hid) Hfirst].
      destruct (find_index deps r 0) as [j|].
      * destruct Hspec as (i' & d' & -> & Hi' & Hid' & Hfirst'). simpl.
        f_equal. destruct (Nat.lt_trichotomy i' i) as [Hlt|[->|Hgt]]; [|done|].
        -- by destruct (Hfirst _ _ Hlt Hi').
        -- by destruct (Hfirst' _ _ Hgt Hi).
      * destruct (Hspec d); [by eapply list_elem_of_lookup_2|done].
  - split.
    + intros Hf. by rewrite Hf in Hspec.
    + intros Hnone. destruct (find_index deps r 0) as [j|]; [|done].
      destruct Hspec as (i' & d & _ & Hi & Hid & _).
      destruct (Hnone d); [by eapply list_elem_of_lookup_2|done].
Qed.

Lemma find_index_set_Index deps i r k :
  find_index deps (set_Index i r) k = find_index deps r k.
Proof.
  revert k. induction deps as [|d deps IH]; intros k; [done|].
  cbn [find_index]. by rewrite IH.
Qed.

Lemma collect_filed_first deps received m :
  filed_first deps m ->
  filed_first deps (fold_left (record_result deps) received m).
Proof.
  revert m. induction received as [|r rs IH]; intros m Hm; [done|].
  cbn [fold_left]. apply IH. unfold record_result.
  destruct (find_index deps r 0) as [i|] eqn:Hi; [|done].
  intros j r'. destruct (decide (i = j)) as [<-|Hne].
  - rewrite lookup_insert_eq. intros [= <-].
    by rewrite find_index_set_Index.
  - rewrite lookup_insert_ne by done. apply Hm.
Qed.

Lemma report_results_ascending (m : gmap nat AuditResult) k :
  (forall i r, m !! i = Some r -> Index r = i) ->
  StronglySorted lt (Index <$> report_results k m)
  /\ Forall (fun i => (i < k)%nat) (Index <$> report_results k m)
  /\ (length (report_results k m) <= k)%nat.
Proof.
  intros Hm. unfold report_results.
  induction k as [|k (IH1 & IH2 & IH3)]; [by repeat constructor|].
  rewrite seq_S, omap_app, fmap_app, length_app. simpl.
  destruct (m !! k) as [r|] eqn:Hk; simpl.
  - rewrite (Hm _ _ Hk). split; [|split; [|lia]].
    + apply StronglySorted_app_2; [|done|by repeat constructor].
      intros x y Hx [->|[]%elem_of_nil]%elem_of_cons.
      by apply (proj1 (Forall_forall _ _) IH2).
    + apply Forall_app. split; [|by repeat constructor].
      eapply Forall_impl; [exact IH2|]. simpl. lia.
  - rewrite app_nil_r. split; [done|]. split; [|lia].
    eapply Forall_impl; [exact IH2|]. simpl. lia.
Qed.

(** X13. Whatever the work list (duplicates included) and whatever the
    worker count, the report never has more entries than items, its
    entries appear in strictly ascending position order, and each entry
    sits at the first position whose item has its name and version. *)
Theorem report_always_ascending :
  forall (deps : list Dependency) (base token : string) (numWorkers : Z) s,
    reachable deps base token numWorkers s ->
    StronglySorted lt (Index <$> final_report s)
    /\ (length (final_report s) <= length deps)%nat
    /\ forall r, r ∈ final_report s -> find_index deps r 0 = Some (Index r).
Proof.
  intros deps base token numWorkers s Hreach.
  destruct (reachable_invariants _ _ _ _ _ Hreach)
    as (_ & [received (_ & _ & Hmap & _)] & Hr).
  assert (filed_first deps (resultMap s)) as Hff.
  { rewrite Hmap. apply collect_filed_first. intros i r.
    by rewrite lookup_empty. }
  unfold reported in Hr. destruct (returned s).
  2:{ rewrite Hr. split; [constructor|]. split; [simpl; lia|].
      by intros r ?%elem_of_nil. }
  destruct Hr as (_ & _ & ->).
  destruct (report_results_ascending (resultMap s) (length deps))
    as (H1 & _ & H3).
  { intros i r Hi. by apply Hff. }
  split; [done|]. split; [done|].
  intros r Hin. unfold report_results in Hin.
  apply list_elem_of_omap in Hin as (i & _ & Hi).
  destruct (Hff _ _ Hi) as [-> ?]. done.
Qed.

Lemma report_always_ascending_witness :
  StronglySorted lt (Index <$> final_report twice_run)
  /\ (length (final_report twice_run) <= length twice)%nat.
Proof.
  destruct (report_always_ascending twice "https://registry.npmjs.org" "" 1
              twice_run twice_run_reachable) as (H1 & H2 & _).
  by split.
Defined.

(** X14. With a worker count of 0 or less the audit still runs to its
    return, but no item is ever probed and the report is empty. *)
Theorem no_workers_no_audit :
  forall (deps : list Dependency) (base token : string) (numWorkers : Z) s,
    numWorkers <= 0 ->
    reachable deps base token numWorkers s ->
    probed s = [] /\ final_report s = []
    /\ exists s', rtc (step deps base token) s s' /\ returned s' = true.
Proof.
  intros deps base token numWorkers s Hn Hreach.
  destruct (no_workers _ _ _ _ _ Hn Hreach) as [H1 H2].
  split; [done|]. split; [done|]. by eapply returns.
Qed.

Lemma no_workers_no_audit_witness :
  0 <= 0
  /\ probed idle_run = [] /\ final_report idle_run = [].
Proof.
  split; [lia|].
  destruct (no_workers_no_audit one_item "https://registry.npmjs.org" "" 0
              idle_run ltac:(lia) idle_run_reachable) as (H1 & H2 & _).
  by split.
Defined.

(** ** The whole run *)

Lemma fetch_distinct order (tree : DependencyTree) :
  is_range_order order tree ->
  NoDup (identity <$> fetchDependenciesFromTree order tree).
Proof.
  intros Ho. apply (NoDup_fmap_1 fst).
  rewrite <- list_fmap_compose.
  change (fst ∘ identity) with dName.
  rewrite fetch_names, sort_Strings_perm, Ho. apply NoDup_fst_map_to_list.
Qed.

Lemma fetch_item order (tree : DependencyTree) d :
  is_range_order order tree ->
  d ∈ fetchDependenciesFromTree order tree ->
  exists info,
    tree !! dName d = Some info
    /\ dVersion d = Version info /\ dType d = Type_ info.
Proof.
  intros Ho Hd. unfold fetchDependenciesFromTree in Hd.
  apply list_elem_of_In, in_map_iff in Hd as (name & <- & Hin).
  apply list_elem_of_In in Hin. rewrite sort_Strings_perm, Ho in Hin.
  apply list_elem_of_fmap in Hin as ([k info] & -> & Hk).
  apply elem_of_map_to_list in Hk. simpl. rewrite Hk. by exists info.
Qed.

(** X15. End to end: when [main] gets as far as the audit, the work list
    it hands to the coordinator has pairwise distinct (name, version)
    pairs; so, with a worker count of at least 1, the report on return
    lists every package of the tree exactly once, sorted by name, each
    with the version the tree records and the type [package]. *)
Theorem main_reports_every_package :
  forall (args : list string) (file : LockFile) (save_error : option string)
         (order : list string) config tree deps,
    main_prepare args file save_error order = ReadyToAudit config tree deps ->
    is_range_order order tree ->
    NoDup (identity <$> deps)
    /\ forall s,
        1 <= numWorkers config ->
        reachable deps (npmRegistryBaseURL config) (accessToken config)
          (numWorkers config) s ->
        returned s = true ->
        Name <$> final_report s = sort_Strings order
        /\ length (final_report s) = size tree
        /\ forall r, r ∈ final_report s ->
                     exists info,
                       tree !! Name r = Some info
                       /\ rVersion r = Version info
                       /\ rType r = "package".
Proof.
  intros args file save_error order config tree deps Hmain Ho.
  unfold main_prepare in Hmain.
  destruct (main_config args) as [c|]; [|done].
  destruct (parsePnpmLock (lockFilePath c) file) as [e|t] eqn:Hparse; [done|].
  destruct save_error; [done|]. injection Hmain as -> -> <-.
  pose proof (fetch_distinct _ _ Ho) as Hnd. split; [done|].
  intros s Hn Hreach Hret.
  destruct (returned_complete _ _ _ Hnd _ _ Hn Hreach Hret)
    as (_ & _ & _ & Hdeps).
  assert (Name <$> final_report s = sort_Strings order) as Hnames.
  { rewrite <- (fetch_names order tree), <- Hdeps, <- list_fmap_compose.
    done. }
  split; [done|]. split.
  - rewrite <- (length_fmap Name), Hnames, sort_Strings_perm, Ho, length_fmap.
    apply length_map_to_list.
  - intros r Hr.
    assert (dep_of r ∈ fetchDependenciesFromTree order tree) as Hd.
    { rewrite <- Hdeps. by apply list_elem_of_fmap_2. }
    destruct (fetch_item _ _ _ Ho Hd) as (info & Hl & Hv & Ht).
    exists info. split; [done|]. split; [done|]. simpl in Ht. rewrite Ht.
    destruct file; try discriminate Hparse. injection Hparse as <-.
    eapply parsePackages_declared; [|exact Hl].
    intros n i. by rewrite lookup_empty.
Qed.

Lemma main_reports_every_package_witness :
  let args := ["combined_audit"; "pnpm-lock.yaml"; "https://registry.npmjs.org"] in
  let file := FileDecoded [("left-pad@1.3.0", ∅); ("abbrev@1.1.1", ∅)] in
  main_prepare args file None ["left-pad"; "abbrev"]
  = ReadyToAudit (mkConfig "pnpm-lock.yaml" "https://registry.npmjs.org" "" 5 [])
      (parsePackages [("left-pad@1.3.0", ∅); ("abbrev@1.1.1", ∅)]) two_items
  /\ NoDup (identity <$> two_items).
Proof.
  intros args file.
  assert (main_prepare args file None ["left-pad"; "abbrev"]
          = ReadyToAudit
              (mkConfig "pnpm-lock.yaml" "https://registry.npmjs.org" "" 5 [])
              (parsePackages [("left-pad@1.3.0", ∅); ("abbrev@1.1.1", ∅)])
              two_items) as Hmain by (by vm_compute).
  split; [exact Hmain|].
  apply (main_reports_every_package _ _ _ _ _ _ _ Hmain).
  unfold is_range_order. apply NoDup_Permutation.
  - apply (bool_decide_unpack _). by vm_compute.
  - apply NoDup_fst_map_to_list.
  - intros x. rewrite list_elem_of_fmap. split.
    + intros Hx. apply list_elem_of_In in Hx. simpl in Hx.
      destruct Hx as [<-|[<-|[]]].
      * exists ("left-pad", declared "1.3.0" ∅). split; [done|].
        apply elem_of_map_to_list. by vm_compute.
      * exists ("abbrev", declared "1.1.1" ∅). split; [done|].
        apply elem_of_map_to_list. by vm_compute.
    + intros ([k v] & -> & Hkv). apply elem_of_map_to_list in Hkv.
      simpl. unfold parsePackages in Hkv. simpl in Hkv.
      apply lookup_insert_Some in Hkv as [[<- _]|[_ Hkv]]; [set_solver|].
      apply lookup_insert_Some in Hkv as [[<- _]|[_ Hkv]]; [set_solver|].
      by rewrite lookup_empty in Hkv.
Defined.

(** ** Command line *)











